(** * Anchor resolution and fill heuristics of [fill_any_docx.py]

    A shallow embedding of the no-template DOCX filler: text
    normalisation, the similarity score, the scan for the best anchor,
    the ordered fill strategies for paragraphs and table cells, the
    loop that drives them over a list of (anchor, value) pairs, and the
    loader of these pairs from JSON data; and of the helpers that
    [fill_docx.py] gives to a template: the path resolver, the check
    boxes and the placeholder for empty values.

    - Texts are Python [str] values: lists of Unicode code points.
    - [str.lower] is a parameter of the development: nothing below
      depends on the case table. The examples use its ASCII part.
    - The document is the store the source mutates in place, through
      python-docx: a region is named by its position, reading [x.text]
      gives the text of the region, and assigning it stores the text
      as python-docx and lxml do, which can raise and can change what
      reads back. A merged cell is one object at several positions.
      Objects are compared by identity, so a paragraph is not found
      again in a list of paragraphs that was built after it.
    - A score is the exact rational [2*M/T] that the source holds as a
      float, and 0.62 and 0.95 are the rationals of these decimals.
    - Exceptions are explicit: what can raise returns a [result].
    - JSON data is the value [json.load] returns; [str] of a value that
      is not a string, and [int] of a string, are parameters. *)

From Stdlib Require Import String Ascii QArith Lqa.
From Stdlib Require DecimalString.

From stdpp Require Import base list sorting.

Local Open Scope nat_scope.

Local Open Scope list_scope.

(** ** Texts *)

Definition char := N.

Definition text := list char.

(** ASCII literals of the source, as code points. *)
Definition lit (s : string) : text :=
  map N_of_ascii (list_ascii_of_string s).

Definition underscore : char := 95%N.

Definition colon : char := 58%N.

Definition backslash : char := 92%N.

Definition space : char := 32%N.

(** ["—"], ["-"] and ["–"]. *)
Definition em_dash : text := [8212%N].

Definition hyphen : text := [45%N].

Definition en_dash : text := [8211%N].

(** Exceptions the modelled code can raise. [TemplateError] stands for
    what [re] raises while it parses a replacement template: [re.error],
    and the [IndexError] it raises for the name of a group that does not
    exist. [ValueError] is raised by the assignment of a text that XML
    cannot hold; [IndexError] is a sequence index out of range. *)
Inductive exn :=
| TemplateError
| ValueError
| IndexError
| AssertionError.

Inductive result (A : Type) :=
| Ok (a : A)
| Raise (e : exn).

Arguments Ok {A} a.

Arguments Raise {A} e.

Definition bind {A B} (r : result A) (k : A -> result B) : result B :=
  match r with
  | Ok a => k a
  | Raise e => Raise e
  end.

Notation "'let*' x := r 'in' k" := (bind r (fun x => k))
  (at level 10, x name, r at level 100, k at level 200).

(** [str.isspace] on one code point, which is also what [\s] matches in
    a [str] pattern. *)
Definition isspace (c : char) : bool :=
  ((9 <=? c) && (c <=? 13) || (28 <=? c) && (c <=? 32)
   || (c =? 133) || (c =? 160) || (c =? 5760)
   || (8192 <=? c) && (c <=? 8202)
   || (c =? 8232) || (c =? 8233) || (c =? 8239) || (c =? 8287)
   || (c =? 12288))%N.

(** [s.lstrip()], [s.rstrip()], [s.strip()]. *)
Fixpoint lstrip (s : text) : text :=
  match s with
  | c :: s' => if isspace c then lstrip s' else s
  | [] => []
  end.

Fixpoint rstrip (s : text) : text :=
  match s with
  | c :: s' =>
      match rstrip s' with
      | [] => if isspace c then [] else [c]
      | r => c :: r
      end
  | [] => []
  end.

Definition strip (s : text) : text := rstrip (lstrip s).

(** [not s.strip()]. *)
Definition blank (s : text) : bool :=
  match strip s with [] => true | _ => false end.

Definition nonempty (s : text) : bool :=
  match s with [] => false | _ => true end.

(** [p in s] on texts. *)
Fixpoint starts_with (p s : text) : bool :=
  match p, s with
  | [], _ => true
  | x :: p', y :: s' => (x =? y)%N && starts_with p' s'
  | _ :: _, [] => false
  end.

Fixpoint contains (s p : text) : bool :=
  starts_with p s ||
  match s with
  | _ :: s' => contains s' p
  | [] => false
  end.

(** [str.lower] on texts of ASCII code points: the instance of the
    case mapping that the examples at the end use. *)
Definition lower_ascii (s : text) : text :=
  map (fun c => if ((65 <=? c) && (c <=? 90))%N then (c + 32)%N else c) s.

(** [WS_RE.sub(" ", s)] with [WS_RE = \s+]: every maximal run of white
    space becomes one space. *)
Fixpoint collapse_ws (s : text) : text :=
  match s with
  | c :: s' =>
      if isspace c then
        match s' with
        | c' :: _ => if isspace c' then collapse_ws s' else space :: collapse_ws s'
        | [] => [space]
        end
      else c :: collapse_ws s'
  | [] => []
  end.

(** ** The pattern [_{3,}] *)

(** Length of the run of underscores at the head of [s]. *)
Fixpoint run_length (s : text) : nat :=
  match s with
  | c :: s' => if (c =? underscore)%N then S (run_length s') else 0
  | [] => 0
  end.

(** [UNDERSCORE_RE.search(text)]: the text before the leftmost match,
    the match (greedy), and the text after it. *)
Fixpoint search (s : text) : option (text * text * text) :=
  match s with
  | c :: s' =>
      if 3 <=? run_length s then
        Some ([], take (run_length s) s, drop (run_length s) s)
      else
        match search s' with
        | Some (pre, m, post) => Some (c :: pre, m, post)
        | None => None
        end
  | [] => None
  end.

Definition has_run (s : text) : bool :=
  match search s with Some _ => true | None => false end.

(** ** Replacement templates

    [UNDERSCORE_RE.sub(repl, text, count=1)] is called with a [str]
    replacement, which [re] parses as a template (CPython 3.12,
    [re._parser.parse_template]): a backslash starts an escape. The
    pattern has no group of its own, so the only group is group 0, the
    whole match. Every other group reference fails: [re] raises
    [re.error] for a number and for a name that is no identifier, and
    [IndexError] for a name that is an identifier; both are
    [TemplateError] here. *)

Definition is_digit (c : char) : bool := ((48 <=? c) && (c <=? 57))%N.

Definition is_octdigit (c : char) : bool := ((48 <=? c) && (c <=? 55))%N.

Definition is_ascii_letter (c : char) : bool :=
  ((65 <=? c) && (c <=? 90) || (97 <=? c) && (c <=? 122))%N.

Definition digit_val (c : char) : N := (c - 48)%N.

(** [s.getuntil(">")]: the group name and the rest after [>]. *)
Fixpoint getuntil_gt (s : text) : option (text * text) :=
  match s with
  | c :: s' =>
      if (c =? 62)%N then Some ([], s')
      else match getuntil_gt s' with
           | Some (name, rest) => Some (c :: name, rest)
           | None => None
           end
  | [] => None
  end.

(** The named escapes of [ESCAPES]: a, b, f, n, r, t, v and the
    backslash. *)
Definition escape_of (c : char) : option char :=
  (if c =? 97 then Some 7 else if c =? 98 then Some 8
   else if c =? 102 then Some 12 else if c =? 110 then Some 10
   else if c =? 114 then Some 13 else if c =? 116 then Some 9
   else if c =? 118 then Some 11 else if c =? 92 then Some 92
   else None)%N.

(** The text one escape [\c...] stands for and the rest of the template
    after it; [s] is the template after [\c], [m] is the match. *)
Definition expand_escape (m : text) (c : char) (s : text) : result (text * text) :=
  if (c =? 103)%N then                       (* \g<name> *)
    match s with
    | lt :: s1 =>
        if (lt =? 60)%N then
          match getuntil_gt s1 with
          | Some (name, rest) =>
              match name with
              | [] => Raise TemplateError
              | _ :: _ =>
                  if forallb (fun d => (d =? 48)%N) name then Ok (m, rest)
                  else Raise TemplateError
              end
          | None => Raise TemplateError
          end
        else Raise TemplateError
    | [] => Raise TemplateError
    end
  else if (c =? 48)%N then                   (* \0, \0o, \0oo *)
    match s with
    | d1 :: s1 =>
        if is_octdigit d1 then
          match s1 with
          | d2 :: s2 =>
              if is_octdigit d2 then
                Ok ([N.land (8 * digit_val d1 + digit_val d2) 255], s2)
              else Ok ([digit_val d1], s1)
          | [] => Ok ([digit_val d1], s1)
          end
        else Ok ([0%N], s)
    | [] => Ok ([0%N], s)
    end
  else if is_digit c then                    (* \ooo, else a group >= 1 *)
    match s with
    | d1 :: d2 :: s2 =>
        if is_octdigit c && is_octdigit d1 && is_octdigit d2 then
          let v := (64 * digit_val c + 8 * digit_val d1 + digit_val d2)%N in
          if (v <=? 255)%N then Ok ([v], s2) else Raise TemplateError
        else Raise TemplateError
    | _ => Raise TemplateError
    end
  else
    match escape_of c with
    | Some e => Ok ([e], s)
    | None =>
        if is_ascii_letter c then Raise TemplateError
        else Ok ([backslash; c], s)
    end.

(** The replacement text for the match [m]; [fuel] bounds the number of
    template items, each of which takes at least one code point. *)
Fixpoint expand (fuel : nat) (m : text) (repl : text) : result text :=
  match repl with
  | [] => Ok []
  | c :: s =>
      match fuel with
      | 0 => Raise TemplateError
      | S fuel' =>
          if (c =? backslash)%N then
            match s with
            | [] => Raise TemplateError
            | e :: s' =>
                let* pr := expand_escape m e s' in
                let* out := expand fuel' m (snd pr) in
                Ok (fst pr ++ out)
            end
          else
            let* out := expand fuel' m s in
            Ok (c :: out)
      end
  end.

Definition expand_template (m : text) (repl : text) : result text :=
  expand (length repl) m repl.

(** [value if value else "—"]. *)
Definition or_dash (value : text) : text :=
  match value with [] => em_dash | _ => value end.

(** [replace_underscores], lines 154-157. *)
Definition replace_underscores (t : text) (value : text) : result text :=
  match search t with
  | Some (pre, m, post) =>
      let* v := expand_template m (or_dash value) in
      Ok (pre ++ v ++ post)
  | None => Ok t
  end.

(** ** The matching blocks of [difflib]

    [SequenceMatcher(None, a, b).ratio()], with no junk predicate and
    the default [autojunk=True]. *)

Definition count (c : char) (b : text) : nat :=
  length (filter (fun x => x = c) b).

(** The popular elements [__chain_b] purges from [b2j]. *)
Definition popular (b : text) (c : char) : bool :=
  (200 <=? length b) && (length b / 100 + 1 <? count c b).

Fixpoint indices_from (j : nat) (b : text) (c : char) : list nat :=
  match b with
  | x :: b' =>
      if (x =? c)%N then j :: indices_from (S j) b' c
      else indices_from (S j) b' c
  | [] => []
  end.

(** [b2j.get(c, [])]. *)
Definition b2j (b : text) (c : char) : list nat :=
  if popular b c then [] else indices_from 0 b c.

(** [j2len.get(j-1, 0)], where [j2len] is kept as an association list. *)
Fixpoint j2len_get (j2len : list (nat * nat)) (j : nat) : nat :=
  match j2len with
  | (j', k) :: rest => if j' =? j then k else j2len_get rest j
  | [] => 0
  end.

Definition j2len_prev (j2len : list (nat * nat)) (j : nat) : nat :=
  match j with
  | 0 => 0
  | S j' => j2len_get j2len j'
  end.

Definition block := (nat * nat * nat)%type.

(** The loop over [b2j.get(a[i])] in [find_longest_match]. *)
Fixpoint scan_row (blo bhi i : nat) (j2len : list (nat * nat)) (js : list nat)
    (newj2len : list (nat * nat)) (best : block) : list (nat * nat) * block :=
  match js with
  | [] => (newj2len, best)
  | j :: js' =>
      if j <? blo then scan_row blo bhi i j2len js' newj2len best
      else if bhi <=? j then (newj2len, best)
      else
        let k := j2len_prev j2len j + 1 in
        let best' :=
          if snd best <? k then (i + 1 - k, j + 1 - k, k) else best in
        scan_row blo bhi i j2len js' ((j, k) :: newj2len) best'
  end.

(** The loop [for i in range(alo, ahi)]. *)
Fixpoint scan_rows (a b : text) (blo bhi : nat) (is_ : list nat)
    (j2len : list (nat * nat)) (best : block) : block :=
  match is_ with
  | [] => best
  | i :: is' =>
      let js := match a !! i with Some c => b2j b c | None => [] end in
      let '(newj2len, best') := scan_row blo bhi i j2len js [] best in
      scan_rows a b blo bhi is' newj2len best'
  end.

(** The two loops that extend the best block by equal elements on each
    side. The junk set is empty, so the two loops over junk elements
    that follow them in the source never run. *)
Fixpoint extend_left (fuel : nat) (a b : text) (alo blo : nat) (best : block) : block :=
  match fuel with
  | 0 => best
  | S fuel' =>
      let '(besti, bestj, bestsize) := best in
      if (alo <? besti) && (blo <? bestj)
         && bool_decide (a !! (besti - 1) = b !! (bestj - 1))
      then extend_left fuel' a b alo blo (besti - 1, bestj - 1, bestsize + 1)
      else best
  end.

Fixpoint extend_right (fuel : nat) (a b : text) (ahi bhi : nat) (best : block) : block :=
  match fuel with
  | 0 => best
  | S fuel' =>
      let '(besti, bestj, bestsize) := best in
      if (besti + bestsize <? ahi) && (bestj + bestsize <? bhi)
         && bool_decide (a !! (besti + bestsize) = b !! (bestj + bestsize))
      then extend_right fuel' a b ahi bhi (besti, bestj, bestsize + 1)
      else best
  end.

Definition find_longest_match (a b : text) (alo ahi blo bhi : nat) : block :=
  let best := scan_rows a b blo bhi (seq alo (ahi - alo)) [] (alo, blo, 0) in
  let best := extend_left (fst (fst best)) a b alo blo best in
  extend_right ahi a b ahi bhi best.

(** The sum of the sizes of [get_matching_blocks()]: the longest match
    of the window, then the windows to its left and to its right. *)
Fixpoint matches (fuel : nat) (a b : text) (alo ahi blo bhi : nat) : nat :=
  match fuel with
  | 0 => 0
  | S fuel' =>
      let '(i, j, k) := find_longest_match a b alo ahi blo bhi in
      if k =? 0 then 0
      else
        k + (if (alo <? i) && (blo <? j)
             then matches fuel' a b alo i blo j else 0)
          + (if (i + k <? ahi) && (j + k <? bhi)
             then matches fuel' a b (i + k) ahi (j + k) bhi else 0)
  end.

(** [_calculate_ratio(matches, len(a) + len(b))]. *)
Definition ratio (a b : text) : Q :=
  let total := length a + length b in
  match total with
  | 0 => 1
  | _ =>
      (2 * Z.of_nat (matches (S (length a)) a b 0 (length a) 0 (length b)))
      # Pos.of_nat total
  end.

(** ** The document

    The texts of the top-level paragraphs and, per table, the cells of
    each row as [row.cells] lists them. python-docx lists one [_Cell]
    object at every grid position that a merged cell covers, so two
    positions of a table can hold the same object: [cell_id] is the
    identity of the object, [cell_text] the text it reads. A paragraph
    handle is its position in [doc.paragraphs]; a cell handle is its
    table and its (row, column). A handle that names no region has no
    counterpart in the source; the model raises [IndexError] for it. *)

Record Cell := mkCell {
  cell_id : nat * nat;
  cell_text : text
}.

Abbreviation Table := (list (list Cell)).

Record Document := mkDocument {
  paragraphs : list text;
  tables : list Table
}.

(** A table without merged cells, from the texts of its rows: every
    grid position holds a cell of its own. *)
Definition grid (rows : list (list text)) : Table :=
  imap (fun r row => imap (fun c t => mkCell (r, c) t) row) rows.

(** Positions of a table that hold the same object read the same
    text. *)
Definition coherent (doc : Document) : Prop :=
  ∀ tb row row' x y,
    tb ∈ tables doc → row ∈ tb → row' ∈ tb → x ∈ row → y ∈ row' →
    cell_id x = cell_id y → cell_text x = cell_text y.

(** ** Assigning a text

    [p.text = v] and [cell.text = v] replace the content of the
    paragraph, or of the cell, by one run. python-docx turns every tab
    of [v] into a tab element and every line feed and carriage return
    into a line break, which reads as a line feed; the other characters
    go to lxml as the text of an element, and lxml raises [ValueError]
    for a string that holds a character XML does not allow: a control
    character other than tab, line feed and carriage return, a
    surrogate, U+FFFE or U+FFFF. *)

Definition xml_char (c : char) : bool :=
  ((c =? 9) || (c =? 10) || (c =? 13)
   || (32 <=? c) && (c <=? 55295)
   || (57344 <=? c) && (c <=? 65533)
   || (65536 <=? c) && (c <=? 1114111))%N.

Definition xml_text (v : text) : Prop := Forall (fun c => xml_char c = true) v.

Definition newline (c : char) : char := if (c =? 13)%N then 10%N else c.

(** The text that reads back after [v] was assigned. *)
Definition written (v : text) : text := map newline v.

(** The assignment of [v]: the text that reads back, or the
    [ValueError]. *)
Definition assign (v : text) : result text :=
  if forallb xml_char v then Ok (written v) else Raise ValueError.

Inductive Kind := KParagraph | KCell.

(** The dataclass [Match], lines 49-56; [cell] is given by [table] and
    [cell_pos]. *)
Record Match := mkMatch {
  kind : Kind;
  score : Q;
  paragraph : option nat;
  table : option nat;
  cell_pos : option (nat * nat)
}.

Definition set_paragraph (doc : Document) (p : nat) (t : text) : Document :=
  mkDocument (<[p := t]> (paragraphs doc)) (tables doc).

(** The object at a grid position, and the text it reads. *)
Definition cell_at (doc : Document) (ti r c : nat) : option Cell :=
  tb ← tables doc !! ti; row ← tb !! r; row !! c.

Definition get_cell (doc : Document) (ti r c : nat) : option text :=
  cell_text <$> cell_at doc ti r c.

(** The text [t] stored in the object [k], at every position that holds
    it. *)
Definition store (k : nat * nat) (t : text) (x : Cell) : Cell :=
  if bool_decide (cell_id x = k) then mkCell k t else x.

Definition set_cell (doc : Document) (ti r c : nat) (t : text) : Document :=
  match cell_at doc ti r c with
  | Some x =>
      mkDocument (paragraphs doc)
        (alter (fmap (fmap (store (cell_id x) t))) ti (tables doc))
  | None => doc
  end.

(** [iter_paragraphs] and [iter_cells], lines 109-118, with the
    positions the loops enumerate. *)
Definition iter_paragraphs (doc : Document) : list (nat * text) :=
  imap (fun i t => (i, t)) (paragraphs doc).

Definition iter_cells (doc : Document) : list (nat * nat * nat * text) :=
  concat (imap (fun t_i tb =>
    concat (imap (fun r_i row =>
      imap (fun c_i x => (t_i, r_i, c_i, cell_text x)) row) tb)) (tables doc)).

(** ** Fill strategies *)

(** [":" in s] and [s.split(":", 1)]. *)
Fixpoint split_colon (s : text) : option (text * text) :=
  match s with
  | c :: s' =>
      if (c =? colon)%N then Some ([], s')
      else match split_colon s' with
           | Some (l, r) => Some (c :: l, r)
           | None => None
           end
  | [] => None
  end.

(** [s in {"—", "-", "–"}]. *)
Definition is_dash (s : text) : bool :=
  bool_decide (s = em_dash) || bool_decide (s = hyphen) || bool_decide (s = en_dash).

(** [f"{a}: {b}"] and [f"{a} {b}"]. *)
Definition colon_join (a b : text) : text := a ++ [colon; space] ++ b.

Definition space_join (a b : text) : text := a ++ [space] ++ b.

(** [doc.paragraphs.index(p)], lines 184-187, where [None] is the
    [ValueError] after which the source sets [idx = -1]. Each time
    [doc.paragraphs] is read, python-docx builds a new list of new
    [Paragraph] objects, and [Paragraph] defines no equality of its own:
    [index] compares [p], which was created before the call, with
    objects created in the call, finds none equal to it and raises. So
    [idx] is -1 in every call of [fill_paragraph], and lines 189-196
    are never reached. *)
Definition index (doc : Document) (p : nat) : option nat := None.

(** Lines 198-200: the fallback that appends. *)
Definition append_fill (doc : Document) (p : nat) (original value : text)
    : result (Document * bool) :=
  let* w := assign (space_join (rstrip original) (or_dash value)) in
  Ok (set_paragraph doc p w, true).

(** Lines 190-196, for the paragraph [q] after the matched one and its
    text: [None] when it is neither blank nor has a run of
    underscores. *)
Definition next_paragraph_fill (doc : Document) (q : nat) (next_text value : text)
    : option (result (Document * bool)) :=
  let nxt := strip next_text in
  if negb (nonempty nxt) || has_run next_text then
    Some (let* t := replace_underscores next_text (or_dash value) in
          let* w := assign t in
          let doc := set_paragraph doc q w in
          if blank w then
            let* w' := assign (or_dash value) in
            Ok (set_paragraph doc q w', true)
          else Ok (doc, true))
  else None.

(** Lines 182-200: the next paragraph when it is empty or has a run of
    underscores, else the fallback. *)
Definition next_fill (doc : Document) (p : nat) (original value : text)
    : result (Document * bool) :=
  match index doc p with
  | Some idx =>
      match paragraphs doc !! (idx + 1) with
      | Some next_text =>
          match next_paragraph_fill doc (idx + 1) next_text value with
          | Some r => r
          | None => append_fill doc p original value
          end
      | None => append_fill doc p original value
      end
  | None => append_fill doc p original value
  end.

(** Lines 172-200: the colon pattern, else the later strategies. *)
Definition colon_fill (doc : Document) (p : nat) (original value : text)
    : result (Document * bool) :=
  match split_colon original with
  | Some (lhs, rhs) =>
      let right_clean := strip rhs in
      if negb (nonempty right_clean) || has_run rhs || is_dash right_clean then
        let insert_val := or_dash value in
        let* w := assign (colon_join (strip lhs) insert_val) in
        Ok (set_paragraph doc p w, true)
      else next_fill doc p original value
  | None => next_fill doc p original value
  end.

(** [fill_paragraph], lines 160-200. *)
Definition fill_paragraph (doc : Document) (p : nat) (value : text)
    : result (Document * bool) :=
  match paragraphs doc !! p with
  | None => Raise IndexError
  | Some original =>
      if blank original then Ok (doc, false)
      else
        let* new_text := replace_underscores original value in
        if bool_decide (new_text ≠ original) then
          let* w := assign new_text in
          Ok (set_paragraph doc p w, true)
        else colon_fill doc p original value
  end.

(** [fill_table_cell_right], lines 203-225. *)
Definition fill_table_cell_right (doc : Document) (m : Match) (value : text)
    : result (Document * bool) :=
  match table m, cell_pos m with
  | Some ti, Some (r_i, c_i) =>
      match tables doc !! ti ≫= (fun tb => tb !! r_i) with
      | None => Raise IndexError
      | Some row =>
          match row !! (c_i + 1) with
          | Some target =>
              let txt := cell_text target in
              let* w :=
                if has_run txt then
                  let* t := replace_underscores txt (or_dash value) in
                  assign t
                else if blank txt || is_dash (strip txt) then
                  assign (or_dash value)
                else assign (space_join (rstrip txt) (or_dash value)) in
              Ok (set_cell doc ti r_i (c_i + 1) w, true)
          | None =>
              match row !! c_i with
              | None => Raise IndexError
              | Some cell =>
                  let cell_txt := cell_text cell in
                  let* t := replace_underscores cell_txt (or_dash value) in
                  let* w := assign t in
                  let doc := set_cell doc ti r_i c_i w in
                  if bool_decide (w = cell_txt) then
                    let* w' :=
                      assign (space_join (rstrip cell_txt) (or_dash value)) in
                    Ok (set_cell doc ti r_i c_i w', true)
                  else Ok (doc, true)
              end
          end
      end
  | _, _ => Raise AssertionError
  end.

(** ** The scan, as the specification words it

    All non-blank paragraph regions in document order, then all
    non-blank cell regions in (table, row, column) order. *)

Inductive Region :=
| RParagraph (p : nat)
| RCell (ti r c : nat).

Definition paragraph_regions (doc : Document) : list (Region * text) :=
  filter (fun rt => blank rt.2 = false)
    (map (fun it => (RParagraph it.1, it.2)) (iter_paragraphs doc)).

Definition cell_regions (doc : Document) : list (Region * text) :=
  filter (fun rt => blank rt.2 = false)
    (map (fun it : nat * nat * nat * text =>
            (RCell it.1.1.1 it.1.1.2 it.1.2, it.2)) (iter_cells doc)).

Definition scan (doc : Document) : list (Region * text) :=
  paragraph_regions doc ++ cell_regions doc.

(** The text a handle reads in the document. *)
Definition region_text (doc : Document) (r : Region) : option text :=
  match r with
  | RParagraph p => paragraphs doc !! p
  | RCell ti r c => get_cell doc ti r c
  end.


(** ** The paragraph strategies

    The four strategies of [fill_paragraph], in the order of the
    source. *)

(** A strategy: when it applies to the paragraph [p] with text
    [original], and the paragraph and the text it assigns. *)
Record Strategy := mkStrategy {
  applies : Document → nat → text → text → bool;
  writes : Document → nat → text → text → nat * text
}.

(** The text with its first run replaced by the value, or by the dash. *)
Definition filled (t v : text) : text :=
  match search t with
  | Some (pre, _, post) => pre ++ or_dash v ++ post
  | None => t
  end.

Definition underscore_strategy : Strategy :=
  mkStrategy (λ _ _ original _, has_run original)
             (λ _ p original v, (p, filled original v)).

Definition colon_strategy : Strategy :=
  mkStrategy
    (λ _ _ original _,
       match split_colon original with
       | Some (_, rhs) => blank rhs || has_run rhs || is_dash (strip rhs)
       | None => false
       end)
    (λ _ p original v,
       match split_colon original with
       | Some (lhs, _) => (p, colon_join (strip lhs) (or_dash v))
       | None => (p, original)
       end).

(** The next paragraph is looked for at [idx + 1], with the [idx] that
    [index] gives. *)
Definition next_strategy : Strategy :=
  mkStrategy
    (λ doc p _ _,
       match index doc p with
       | Some idx =>
           match paragraphs doc !! (idx + 1) with
           | Some next_text => blank next_text || has_run next_text
           | None => false
           end
       | None => false
       end)
    (λ doc p original v,
       match index doc p with
       | Some idx =>
           match paragraphs doc !! (idx + 1) with
           | Some next_text =>
               (idx + 1,
                if blank (filled next_text v) then or_dash v
                else filled next_text v)
           | None => (p, original)
           end
       | None => (p, original)
       end).

Definition append_strategy : Strategy :=
  mkStrategy (λ _ _ _ _, true)
             (λ _ p original v, (p, space_join (rstrip original) (or_dash v))).

Definition paragraph_chain : list Strategy :=
  [underscore_strategy; colon_strategy; next_strategy; append_strategy].

Fixpoint first_applicable (chain : list Strategy)
    (doc : Document) (p : nat) (original v : text) : option (nat * text) :=
  match chain with
  | [] => None
  | s :: rest =>
      if applies s doc p original v then Some (writes s doc p original v)
      else first_applicable rest doc p original v
  end.

(** The text [fill_table_cell_right] assigns to the right neighbour
    that reads [txt]. *)
Definition neighbour_text (txt v : text) : text :=
  if has_run txt then filled txt v
  else if blank txt || is_dash (strip txt) then or_dash v
  else space_join (rstrip txt) (or_dash v).

(** ** Values and content *)

(** A replacement without a backslash, which [re] takes as it is. *)
Definition literal (v : text) : Prop := Forall (fun c => c ≠ backslash) v.

(** What a fill raises for the value [v]: the error of the template,
    which needs a backslash in [v], or the error of the assignment. *)
Definition raised_by (v : text) (e : exn) : Prop :=
  (e = TemplateError ∧ ¬ literal v) ∨ e = ValueError.

(** A value without a backslash that is not itself a run of three or
    more underscores. *)
Definition plain (v : text) : Prop :=
  literal v ∧ ¬ (3 ≤ length v ∧ Forall (λ c, c = underscore) v).

(** [p] occurs in [s] as a contiguous part. *)
Definition occurs (p s : text) : Prop := ∃ l r, s = l ++ p ++ r.

(** Content that is neither white space, nor an underscore, nor one of
    the placeholder dashes. *)
Definition meaningful_char (c : char) : bool :=
  negb (isspace c) && negb (c =? underscore)%N
  && negb (bool_decide ([c] = em_dash)) && negb (bool_decide ([c] = hyphen))
  && negb (bool_decide ([c] = en_dash)).

Definition meaningful (s : text) : Prop :=
  s ≠ [] ∧ Forall (fun c => meaningful_char c = true) s.

(** Every piece of meaningful content of [old] is still in [new]. *)
Definition preserved (old new : text) : Prop :=
  ∀ s, meaningful s → occurs s old → occurs s new.

(** ** Windows of the matching blocks *)

(** A block lies inside the window it was searched in. *)
Definition block_in (alo ahi blo bhi : nat) (b : block) : Prop :=
  alo ≤ b.1.1 ∧ b.1.1 + b.2 ≤ ahi ∧ blo ≤ b.1.2 ∧ b.1.2 + b.2 ≤ bhi.

(** The lengths recorded for the row [i]: a match that ends at [(i, j)]
    starts inside the window. *)
Definition row_in (alo blo i : nat) (l : list (nat * nat)) : Prop :=
  Forall (λ jk : nat * nat, jk.2 + alo ≤ i ∧ jk.2 + blo ≤ jk.1 + 1) l.

(** ** Documents read from a file

    Every text of a document that was parsed from XML consists of
    characters that XML allows. *)
Definition xml_document (doc : Document) : Prop :=
  Forall xml_text (paragraphs doc)
  ∧ Forall (Forall (Forall (λ x, xml_text (cell_text x)))) (tables doc).

(** ** The shape of a document *)

(** The number of paragraphs and, per table and row, the number of
    cells. *)
Definition doc_shape (doc : Document) : nat * list (list nat) :=
  (length (paragraphs doc), map (map length) (tables doc)).

(** ** The first run of a text *)

(** [t] is [pre], then a run [m] of three or more underscores that
    cannot be extended to the right, then [post], and no run of three
    underscores starts in [t] before [m]. *)
Definition first_run (t pre m post : text) : Prop :=
  t = pre ++ m ++ post
  ∧ 3 ≤ length m ∧ Forall (λ c, c = underscore) m
  ∧ run_length post = 0
  ∧ ∀ k, k < length pre → run_length (drop k t) < 3.

(** No run of three underscores starts anywhere in [t]. *)
Definition no_run (t : text) : Prop := ∀ k, run_length (drop k t) < 3.

(** ** JSON values

    What [json.load] returns. A dict is the list of its items in
    insertion order, and the keys of a dict are distinct. A float is
    given by its 64 bits; no function below looks into a number. *)

Local Unset Elimination Schemes.

Inductive json :=
| JNull
| JBool (b : bool)
| JInt (z : Z)
| JFloat (bits : N)
| JStr (s : text)
| JList (items : list json)
| JDict (items : list (text * json)).

Local Set Elimination Schemes.

(** [d.get(k)]: [None] stands for a missing key. *)
Fixpoint dict_get (d : list (text * json)) (k : text) : option json :=
  match d with
  | [] => None
  | (k', v) :: d' => if bool_decide (k' = k) then Some v else dict_get d' k
  end.

(** [d.get(k)] as a value, where a missing key gives Python's [None],
    and [d.get(k, dflt)]. *)
Definition get_or_none (d : list (text * json)) (k : text) : json :=
  default JNull (dict_get d k).

Definition get_or (d : list (text * json)) (k : text) (dflt : json) : json :=
  default dflt (dict_get d k).

(** [s.split(sep)] for a separator of one code point. *)
Fixpoint split_on (sep : char) (s : text) : list text :=
  match s with
  | [] => [[]]
  | c :: s' =>
      if (c =? sep)%N then [] :: split_on sep s'
      else match split_on sep s' with
           | p :: ps => (c :: p) :: ps
           | [] => [[c]]
           end
  end.

(** [s.split(sep, 1)] when [sep] occurs in [s]. *)
Fixpoint split_first (sep : char) (s : text) : option (text * text) :=
  match s with
  | c :: s' =>
      if (c =? sep)%N then Some ([], s')
      else match split_first sep s' with
           | Some (l, r) => Some (c :: l, r)
           | None => None
           end
  | [] => None
  end.

(** [c in s] and [s.endswith(c)] for one code point, and [s[:-1]]. *)
Definition has_char (c : char) (s : text) : bool := existsb (N.eqb c) s.

Definition ends_with (c : char) (s : text) : bool :=
  match last s with Some x => (x =? c)%N | None => false end.

Definition drop_last (s : text) : text := take (length s - 1) s.

Definition dot : char := 46%N.
Definition lbracket : char := 91%N.
Definition rbracket : char := 93%N.

(** The result of [load_fields]: the fields, or the [ValueError] for a
    JSON value that is neither a dict nor a list. *)
Inductive loaded :=
| Loaded (fields : list (text * text))
| UnsupportedFormat.

(** [CheckboxConfig] and [FillConfig] of [fill_docx.py], lines 29-38;
    their fields hold whatever the JSON data gives. *)
Record CheckboxConfig := mkCheckboxConfig {
  checked : json;
  unchecked : json
}.

Record FillConfig := mkFillConfig {
  empty_placeholder : json;
  checkbox_config : CheckboxConfig
}.

(** [CHECKED_DEFAULT] and [UNCHECKED_DEFAULT]: the ballot boxes
    U+2611 and U+2610. *)
Definition CHECKED_DEFAULT : text := [9745%N].
Definition UNCHECKED_DEFAULT : text := [9744%N].

(** [build_config], lines 128-135; [None] is the [AttributeError] of
    [.get] on a [checkbox_symbols] that is not a dict. *)
Definition build_config (data : list (text * json)) : option FillConfig :=
  let empty := get_or data (lit "empty_placeholder") (JStr em_dash) in
  match get_or data (lit "checkbox_symbols") (JDict []) with
  | JDict symbols =>
      Some (mkFillConfig empty
              (mkCheckboxConfig
                 (get_or symbols (lit "checked") (JStr CHECKED_DEFAULT))
                 (get_or symbols (lit "unchecked") (JStr UNCHECKED_DEFAULT))))
  | _ => None
  end.

(** [value] of [build_context], lines 103-108. *)
Definition value_or_placeholder (config : FillConfig) (item : json) : json :=
  match item with
  | JNull => empty_placeholder config
  | JStr s => if blank s then empty_placeholder config else item
  | _ => item
  end.

(** A key of one path part: not empty, without a dot and without an
    opening bracket. *)
Definition simple_key (k : text) : Prop :=
  k ≠ [] ∧ has_char dot k = false ∧ has_char lbracket k = false.

(** A JSON value that is neither a dict nor a list. *)
Definition scalar (v : json) : Prop :=
  match v with
  | JDict _ | JList _ => False
  | _ => True
  end.

(** Instances of the two built-ins for the examples at the end: [str]
    of null, of a boolean and of an integer, and [int] of an optional
    minus sign followed by ASCII digits. For a float, a list or a dict
    [py_str_basic] gives the empty text, which is not what Python
    gives: the examples use none of them. *)
Definition py_str_basic (v : json) : text :=
  match v with
  | JNull => lit "None"
  | JBool true => lit "True"
  | JBool false => lit "False"
  | JInt z => lit (DecimalString.NilZero.string_of_int (Z.to_int z))
  | _ => []
  end.

Fixpoint digits_value (acc : Z) (s : text) : option Z :=
  match s with
  | [] => Some acc
  | c :: s' =>
      if is_digit c then digits_value (10 * acc + Z.of_N (digit_val c)) s'
      else None
  end.

Definition py_int_ascii (s : text) : option Z :=
  match s with
  | [] => None
  | c :: s' =>
      if (c =? 45)%N then
        match s' with
        | [] => None
        | _ => option_map Z.opp (digits_value 0 s')
        end
      else digits_value 0 s
  end.

(** ** Scores *)

Definition Qlt_bool (x y : Q) : bool := negb (Qle_bool y x).

Definition min_score : Q := 62 # 100.

Definition boost : Q := 95 # 100.

(** [best is None or score > best.score]. *)
Definition improves (best : option Match) (s : Q) : bool :=
  match best with
  | None => true
  | Some m => Qlt_bool (score m) s
  end.

(** ** Normalisation, resolution and the loop

    What follows depends on [str.lower], the case mapping of the Python
    runtime. *)

Section Engine.

Variable lower : text → text.

Definition norm (s : text) : text := collapse_ws (lower (strip s)).

(** [sim], lines 42-46. *)
Definition sim (a b : text) : Q :=
  match a, b with
  | [], _ | _, [] => 0
  | _, _ => ratio (norm a) (norm b)
  end.

(** Lines 131-134 and 143-145: the score of one region, with the boost. *)
Definition region_score (anchor_n t : text) : Q :=
  let score := sim anchor_n t in
  if nonempty anchor_n && contains (norm t) anchor_n then
    (if Qlt_bool score boost then boost else score)
  else score.

Definition paragraph_step (anchor_n : text) (best : option Match)
    (it : nat * text) : option Match :=
  let '(p, t) := it in
  if blank t then best
  else
    let s := region_score anchor_n t in
    if improves best s then Some (mkMatch KParagraph s (Some p) None None)
    else best.

Definition cell_step (anchor_n : text) (best : option Match)
    (it : nat * nat * nat * text) : option Match :=
  let '(t_i, r_i, c_i, t) := it in
  if blank t then best
  else
    let s := region_score anchor_n t in
    if improves best s
    then Some (mkMatch KCell s None (Some t_i) (Some (r_i, c_i)))
    else best.

(** [find_best_anchor], lines 121-151. *)
Definition find_best_anchor (doc : Document) (anchor : text) : option Match :=
  let anchor_n := norm anchor in
  let best := fold_left (paragraph_step anchor_n) (iter_paragraphs doc) None in
  let best := fold_left (cell_step anchor_n) (iter_cells doc) best in
  match best with
  | None => None
  | Some m => if Qlt_bool (score m) min_score then None else Some m
  end.

(** The [Match] the source builds for a region and its score. *)
Definition match_of (anchor_n : text) (rt : Region * text) : Match :=
  let s := region_score anchor_n rt.2 in
  match rt.1 with
  | RParagraph p => mkMatch KParagraph s (Some p) None None
  | RCell ti r c => mkMatch KCell s None (Some ti) (Some (r, c))
  end.

(** One pass of either loop, on a region of the scan. *)
Definition scan_step (anchor_n : text) (best : option Match)
    (rt : Region * text) : option Match :=
  if improves best (region_score anchor_n rt.2)
  then Some (match_of anchor_n rt) else best.

(** ** The loop of [fill_docx], lines 232-246

    One pass of the loop body on the document and the [not_found] list,
    and the loop over the fields. Loading and saving are left out. *)

Definition fill_one (doc : Document) (not_found : list text)
    (field : text * text) : result (Document * list text) :=
  let '(anchor, value) := field in
  if negb (nonempty anchor) then Ok (doc, not_found)
  else
    match find_best_anchor doc anchor with
    | None => Ok (doc, not_found ++ [anchor])
    | Some m =>
        match kind m with
        | KCell =>
            let* r := fill_table_cell_right doc m value in
            Ok (fst r, not_found)
        | KParagraph =>
            match paragraph m with
            | None => Raise AssertionError
            | Some p =>
                let* r := fill_paragraph doc p value in
                Ok (fst r, not_found)
            end
        end
    end.

Fixpoint fill_fields (doc : Document) (not_found : list text)
    (fields : list (text * text)) : result (Document * list text) :=
  match fields with
  | [] => Ok (doc, not_found)
  | f :: rest =>
      let* st := fill_one doc not_found f in
      fill_fields (fst st) (snd st) rest
  end.

Definition fill (doc : Document) (fields : list (text * text))
    : result (Document * list text) :=
  fill_fields doc [] fields.

(** What the proofs about [norm] use of the case mapping: it is
    idempotent, it commutes with the collapsing of white space, and it
    keeps a text without leading and trailing white space such. *)
Definition case_mapping_laws : Prop :=
  (∀ s, lower (lower s) = lower s)
  ∧ (∀ s, lower (collapse_ws s) = collapse_ws (lower s))
  ∧ (∀ s, strip s = s → strip (lower s) = lower s).

(** ** The loader and the template helpers

    [str(v)] of a JSON value that is not a string, and [int(s)], are
    Python built-ins: parameters here. [py_int s] is [None] where
    [int(s)] raises [ValueError]. *)

Variable py_str : json → text.

Variable py_int : text → option Z.

(** [str(v)]. *)
Definition str (v : json) : text :=
  match v with
  | JStr s => s
  | _ => py_str v
  end.

(** [[""] if value is None else str(value).strip()]. *)
Definition value_str (v : json) : text :=
  match v with
  | JNull => []
  | _ => strip (str v)
  end.

(** One item of the [fields] list, lines 65-72. *)
Definition field_of_item (item : json) : option (text * text) :=
  match item with
  | JDict d =>
      let anchor := strip (str (get_or d (lit "anchor") (JStr []))) in
      let value := get_or d (lit "value") (JStr []) in
      if nonempty anchor then Some (anchor, value_str value) else None
  | _ => None
  end.

(** One item of a top-level list, lines 82-101. *)
Definition field_of_list_item (item : json) : option (text * text) :=
  match item with
  | JDict [] => None
  | JDict d =>
      match dict_get d (lit "anchor"), dict_get d (lit "value") with
      | Some a, Some v => Some (strip (str a), value_str v)
      | _, _ =>
          match d with
          | [(k, v)] => Some (strip k, value_str v)
          | _ => None
          end
      end
  | _ => None
  end.

(** [load_fields], lines 59-107, on the parsed JSON value. *)
Definition load_fields (data : json) : loaded :=
  match data with
  | JDict d =>
      match dict_get d (lit "fields") with
      | Some (JList items) => Loaded (omap field_of_item items)
      | _ => Loaded (map (λ kv : text * json, (strip kv.1, value_str kv.2)) d)
      end
  | JList items => Loaded (omap field_of_list_item items)
  | _ => UnsupportedFormat
  end.

(** [fill_docx], lines 228-246, without the files: the fields are
    loaded first, then the pass runs. *)
Definition fill_loaded (doc : Document) (data : json)
    : option (result (Document * list text)) :=
  match load_fields data with
  | Loaded fields => Some (fill doc fields)
  | UnsupportedFormat => None
  end.

(** [normalize_choice], [fill_docx.py] lines 55-62; the set is given by
    a list of its elements. *)
Definition normalize_choice (value : json) : list text :=
  match value with
  | JNull => []
  | JStr s => [s]
  | JList items => map str items
  | JDict d => map fst d
  | _ => [str value]
  end.

(** [checkbox] of [build_context], lines 96-101; [None] is the
    [AttributeError] of [.get] on a [choices] that is not a dict. *)
Definition checkbox (data : list (text * json)) (config : FillConfig)
    (group opt : text) : option json :=
  match get_or data (lit "choices") (JDict []) with
  | JDict choices =>
      let selected := normalize_choice (get_or_none choices group) in
      Some (if bool_decide (opt ∈ selected)
            then checked (checkbox_config config)
            else unchecked (checkbox_config config))
  | _ => None
  end.

(** One part of a path in [resolve_path], lines 68-91: the new
    [current], or [None] where the source returns [None] at once. *)
Definition resolve_part (current : json) (raw_part : text) : option json :=
  if has_char lbracket raw_part && ends_with rbracket raw_part then
    match split_first lbracket (drop_last raw_part) with
    | Some (key, index_part) =>
        let current :=
          match key with
          | [] => Some current
          | _ =>
              match current with
              | JDict d => Some (get_or_none d key)
              | _ => None
              end
          end in
        match current with
        | None | Some JNull => None
        | Some current =>
            match py_int index_part with
            | None => None
            | Some index =>
                match current with
                | JList items =>
                    if (index <? 0)%Z || (Z.of_nat (length items) <=? index)%Z
                    then None
                    else items !! Z.to_nat index
                | _ => None
                end
            end
        end
    | None => None
    end
  else
    match current with
    | JDict d => Some (get_or_none d raw_part)
    | _ => None
    end.

Fixpoint resolve_parts (current : json) (parts : list text) : json :=
  match parts with
  | [] => current
  | raw_part :: rest =>
      match raw_part with
      | [] => resolve_parts current rest
      | _ =>
          match resolve_part current raw_part with
          | Some current => resolve_parts current rest
          | None => JNull
          end
      end
  end.

(** [resolve_path], lines 65-92. *)
Definition resolve_path (data : json) (path : text) : json :=
  resolve_parts data (split_on dot path).

(** [field] of [build_context], lines 110-114; [default] is [JNull]
    when the caller gives none. *)
Definition field (data : json) (config : FillConfig) (path : text)
    (dflt : json) : json :=
  match resolve_path data path with
  | JNull =>
      match dflt with
      | JNull => empty_placeholder config
      | _ => dflt
      end
  | resolved => value_or_placeholder config resolved
  end.

(** * Properties *)

(** ** Templates and literal values *)

Lemma getuntil_gt_shorter s name rest :
  getuntil_gt s = Some (name, rest) → length rest < length s.
Proof.
  revert name. induction s as [|c s IH]; intros name; [done|]. cbn [getuntil_gt].
  destruct (c =? 62)%N; [intros [= _ <-]; simpl; lia|].
  destruct (getuntil_gt s) as [[n r]|]; [|done].
  intros [= _ <-]. specialize (IH n eq_refl). simpl. lia.
Qed.

Lemma expand_escape_shorter m c s piece rest :
  expand_escape m c s = Ok (piece, rest) → length rest ≤ length s.
Proof.
  unfold expand_escape.
  repeat (case_match; try done); intros [= _ <-]; subst; simpl; try lia.
  all: match goal with H : getuntil_gt _ = Some _ |- _ =>
    apply getuntil_gt_shorter in H end.
  all: unfold text, char in *; simpl in *; lia.
Qed.

(** The template is parsed to its end with any fuel that is at least
    its length: the fuel [expand_template] gives is enough. *)
Lemma expand_fuel m f1 : ∀ f2 repl,
  length repl ≤ f1 → length repl ≤ f2 → expand f1 m repl = expand f2 m repl.
Proof.
  induction f1 as [|f1 IH]; intros f2 [|c s] H1 H2; simpl in *; try done; try lia.
  - by destruct f2.
  - by destruct f2.
  - destruct f2 as [|f2]; [lia|]. simpl.
    destruct (c =? backslash)%N.
    + destruct s as [|e s']; [done|].
      destruct (expand_escape m e s') as [[piece rest]|] eqn:He; [|done].
      apply expand_escape_shorter in He. cbn [bind fst snd].
      rewrite (IH f2) by (simpl in *; lia). done.
    + rewrite (IH f2) by lia. done.
Qed.

Lemma expand_literal fuel m v :
  literal v → length v ≤ fuel → expand fuel m v = Ok v.
Proof.
  revert v. induction fuel as [|fuel IH]; intros [|c v] Hlit Hlen; simpl in *;
    try reflexivity; try lia.
  inversion Hlit as [|? ? Hc Hv]; subst.
  destruct (N.eqb_spec c backslash) as [->|_]; [done|].
  rewrite IH by (auto; lia). reflexivity.
Qed.

Lemma expand_template_literal m v : literal v → expand_template m v = Ok v.
Proof. intros H. apply expand_literal; auto. Qed.

Lemma literal_or_dash v : literal v → literal (or_dash v).
Proof.
  destruct v; simpl; [|done]. intros _. repeat constructor. discriminate.
Qed.

Lemma or_dash_idem v : or_dash (or_dash v) = or_dash v.
Proof. by destruct v. Qed.

Lemma replace_underscores_literal t v pre m post :
  literal v → search t = Some (pre, m, post) →
  replace_underscores t v = Ok (pre ++ or_dash v ++ post).
Proof.
  intros Hv Hs. unfold replace_underscores. rewrite Hs.
  rewrite expand_template_literal by (by apply literal_or_dash). reflexivity.
Qed.

Lemma replace_underscores_no_run t v :
  has_run t = false → replace_underscores t v = Ok t.
Proof.
  unfold has_run, replace_underscores. by destruct (search t) as [[[??]?]|].
Qed.

Lemma replace_underscores_or_dash t v :
  replace_underscores t (or_dash v) = replace_underscores t v.
Proof. unfold replace_underscores. by rewrite or_dash_idem. Qed.

(** ** The first run of underscores *)

Lemma run_length_take s : Forall (λ c, c = underscore) (take (run_length s) s).
Proof.
  induction s as [|c s IH]; simpl; [constructor|].
  destruct (N.eqb_spec c underscore) as [->|]; simpl; by constructor.
Qed.

Lemma run_length_drop s : run_length (drop (run_length s) s) = 0.
Proof.
  induction s as [|c s IH]; simpl; [done|].
  destruct (N.eqb_spec c underscore) as [->|Hc]; simpl; [done|].
  by destruct (N.eqb_spec c underscore).
Qed.

Lemma run_length_le s : run_length s ≤ length s.
Proof.
  induction s as [|c s IH]; simpl; [done|].
  destruct (c =? underscore)%N; simpl; lia.
Qed.

(** What [search] finds: the match is a run of three or more
    underscores, it cannot be extended to the right, and no match starts
    at an earlier position. *)
Lemma search_Some t : ∀ pre m post,
  search t = Some (pre, m, post) →
  t = pre ++ m ++ post
  ∧ 3 ≤ length m ∧ Forall (λ c, c = underscore) m
  ∧ run_length post = 0
  ∧ ∀ k, k < length pre → run_length (drop k t) < 3.
Proof.
  induction t as [|c t IH]; intros pre m post; [done|].
  cbn [search]. destruct (3 <=? run_length (c :: t)) eqn:Hrun.
  - intros [= <- <- <-]. apply Nat.leb_le in Hrun.
    split; [by rewrite app_nil_l, take_drop|].
    split; [rewrite length_take_le by exact (run_length_le (c :: t)); exact Hrun|].
    split; [exact (run_length_take (c :: t))|].
    split; [exact (run_length_drop (c :: t))|].
    intros k Hk. simpl in Hk. lia.
  - apply Nat.leb_gt in Hrun.
    destruct (search t) as [[[pre' m'] post']|] eqn:Hs; [|done].
    intros [= <- <- <-].
    destruct (IH _ _ _ eq_refl) as (-> & Hlen & Hall & Hpost & Hfirst).
    repeat split; try done.
    intros [|k] Hk; [done|]. simpl in Hk. apply Hfirst. lia.
Qed.

Lemma search_None t : search t = None ↔ ∀ k, run_length (drop k t) < 3.
Proof.
  induction t as [|c t IH].
  - split; [|done]. intros _ k. rewrite drop_nil. simpl. lia.
  - cbn [search]. destruct (3 <=? run_length (c :: t)) eqn:Hrun.
    + apply Nat.leb_le in Hrun. split; [done|]. intros H. specialize (H 0).
      rewrite drop_0 in H. lia.
    + apply Nat.leb_gt in Hrun.
      destruct (search t) as [[[pre' m'] post']|] eqn:Hs.
      * split; [done|]. intros H. exfalso.
        destruct IH as [_ IH]. discriminate IH. intros k. apply (H (S k)).
      * split; [|done]. intros _ [|k]; [done|]. simpl. by apply IH.
Qed.

(** With a literal value (no backslash), [replace_underscores] puts the
    value (the dash if it is empty) in place of the first run of three
    or more underscores and keeps the text before and after it; a text
    with no such run is returned as it is. *)
Lemma replace_underscores_first_run t v :
  literal v →
  (∀ pre m post, search t = Some (pre, m, post) →
     t = pre ++ m ++ post
     ∧ replace_underscores t v = Ok (pre ++ or_dash v ++ post))
  ∧ (search t = None → replace_underscores t v = Ok t).
Proof.
  intros Hv. split.
  - intros pre m post Hs. split; [by apply search_Some in Hs as [? _]|].
    by apply (replace_underscores_literal t v pre m post).
  - intros Hs. apply replace_underscores_no_run. unfold has_run. by rewrite Hs.
Qed.

Lemma filled_changes t v :
  plain v → has_run t = true → filled t v ≠ t.
Proof.
  intros [_ Hv]. unfold has_run, filled.
  destruct (search t) as [[[pre m] post]|] eqn:Hs; [|done]. intros _ Heq.
  apply search_Some in Hs as (Ht & Hlen & Hall & _).
  rewrite Ht in Heq. apply app_inv_head, app_inv_tail in Heq.
  destruct v as [|c v]; cbn [or_dash] in Heq.
  - subst m. by apply Forall_cons_1 in Hall as [? _].
  - apply Hv. by rewrite Heq.
Qed.

Lemma filled_no_run t v : has_run t = false → filled t v = t.
Proof. unfold has_run, filled. by destruct (search t) as [[[??]?]|]. Qed.

Lemma replace_underscores_filled t v :
  literal v → replace_underscores t v = Ok (filled t v).
Proof.
  intros Hv. unfold replace_underscores, filled.
  destruct (search t) as [[[pre m] post]|]; [|done].
  by rewrite expand_template_literal by (by apply literal_or_dash).
Qed.

(** ** [in] on texts *)

Lemma starts_with_spec p : ∀ s, starts_with p s = true ↔ ∃ r, s = p ++ r.
Proof.
  induction p as [|x p IH]; intros s; simpl.
  - split; [by exists s|done].
  - destruct s as [|y s].
    + split; [done|]. by intros (r & ?).
    + rewrite andb_true_iff, N.eqb_eq, IH. split.
      * intros [-> [r ->]]. by exists r.
      * intros (r & [= -> ->]). eauto.
Qed.

Lemma contains_spec p : ∀ s, contains s p = true ↔ occurs p s.
Proof.
  induction s as [|y s IH].
  - cbn [contains]. rewrite orb_false_r, starts_with_spec. split.
    + intros (r & ->). exists [], r. done.
    + intros (l & r & H). destruct l; [by exists r|done].
  - cbn [contains]. rewrite orb_true_iff, starts_with_spec, IH. split.
    + intros [(r & ->)|(l & r & ->)]; [by exists [], r|by exists (y :: l), r].
    + intros (l & r & H). destruct l as [|z l].
      * left. by exists r.
      * right. injection H as -> ->. by exists l, r.
Qed.

Lemma occurs_mid (l p r : text) : occurs p (l ++ p ++ r).
Proof. by exists l, r. Qed.

Lemma occurs_colon_join a b : occurs b (colon_join a b).
Proof. exists (a ++ [colon; space]), []. unfold colon_join. by rewrite app_nil_r, <- app_assoc. Qed.

Lemma occurs_space_join a b : occurs b (space_join a b).
Proof. exists (a ++ [space]), []. unfold space_join. by rewrite app_nil_r, <- app_assoc. Qed.

Lemma occurs_refl (p : text) : occurs p p.
Proof. exists [], []. by rewrite app_nil_r. Qed.

Lemma occurs_app_l (s l r : text) : occurs s l → occurs s (l ++ r).
Proof. intros (x & y & ->). exists x, (y ++ r). by rewrite <- !app_assoc. Qed.

Lemma occurs_app_r (s l r : text) : occurs s r → occurs s (l ++ r).
Proof. intros (x & y & ->). exists (l ++ x), y. by rewrite <- !app_assoc. Qed.

Lemma occurs_nil_inv (s : text) : occurs s [] → s = [].
Proof.
  intros (x & y & H). symmetry in H.
  apply app_eq_nil in H as [_ H]. by apply app_eq_nil in H as [? _].
Qed.

(** ** White space and the parts of a text *)

Lemma lstrip_split s :
  ∃ ws, s = ws ++ lstrip s ∧ Forall (λ c, isspace c = true) ws.
Proof.
  induction s as [|c s (ws & Hs & Hws)]; [by exists []|].
  cbn [lstrip]. destruct (isspace c) eqn:Hc.
  - exists (c :: ws). split; [by rewrite Hs at 1|by constructor].
  - by exists [].
Qed.

Lemma rstrip_split s :
  ∃ ws, s = rstrip s ++ ws ∧ Forall (λ c, isspace c = true) ws.
Proof.
  induction s as [|c s (ws & Hs & Hws)]; [by exists []|].
  cbn [rstrip]. destruct (rstrip s) as [|c' r] eqn:Hr.
  - destruct (isspace c) eqn:Hc.
    + exists (c :: ws). split; [by rewrite Hs at 1|by constructor].
    + exists ws. split; [by rewrite Hs at 1|done].
  - exists ws. split; [by rewrite Hs at 1|done].
Qed.

Lemma strip_split s :
  ∃ ws1 ws2, s = ws1 ++ strip s ++ ws2
    ∧ Forall (λ c, isspace c = true) ws1 ∧ Forall (λ c, isspace c = true) ws2.
Proof.
  destruct (lstrip_split s) as (ws1 & H1 & Hws1).
  destruct (rstrip_split (lstrip s)) as (ws2 & H2 & Hws2).
  exists ws1, ws2. unfold strip. by rewrite <- H2.
Qed.

Lemma blank_Forall s : blank s = true → Forall (λ c, isspace c = true) s.
Proof.
  unfold blank. destruct (strip s) eqn:H; [|done]. intros _.
  destruct (strip_split s) as (ws1 & ws2 & Hs & H1 & H2). rewrite H in Hs.
  rewrite Hs. by apply Forall_app.
Qed.




(** ** Assignment *)

Lemma forallb_xml_char t : forallb xml_char t = true ↔ xml_text t.
Proof.
  unfold xml_text. induction t as [|c t IH]; cbn [forallb].
  - split; [constructor|done].
  - rewrite andb_true_iff, IH, Forall_cons. done.
Qed.

(** An assignment succeeds exactly for a text of XML characters, and
    then the text reads back with line feeds for its carriage returns;
    the only exception it raises is [ValueError]. *)
Lemma assign_Ok t w : assign t = Ok w ↔ xml_text t ∧ w = written t.
Proof.
  unfold assign. rewrite <- forallb_xml_char.
  destruct (forallb xml_char t); split; try done.
  - by intros [= <-].
  - by intros [_ ->].
  - by intros [? _].
Qed.

Lemma assign_xml t : xml_text t → assign t = Ok (written t).
Proof. intros H. by apply assign_Ok. Qed.

Lemma assign_Raise t e : assign t = Raise e → e = ValueError ∧ ¬ xml_text t.
Proof.
  unfold assign. rewrite <- forallb_xml_char.
  destruct (forallb xml_char t); [done|]. intros [= <-]. by split.
Qed.



Lemma written_app a b : written (a ++ b) = written a ++ written b.
Proof. apply map_app. Qed.

Lemma xml_text_written t : xml_text t → xml_text (written t).
Proof.
  unfold xml_text, written. intros H. apply Forall_fmap.
  eapply Forall_impl; [exact H|]. intros c Hc. cbn. unfold newline.
  by destruct (N.eqb_spec c 13) as [->|].
Qed.

Lemma xml_text_app a b : xml_text (a ++ b) ↔ xml_text a ∧ xml_text b.
Proof. apply Forall_app. Qed.

Lemma xml_text_strip t : xml_text t → xml_text (strip t).
Proof.
  destruct (strip_split t) as (ws1 & ws2 & Ht & _). intros H. rewrite Ht in H.
  apply xml_text_app in H as [_ H]. by apply xml_text_app in H as [? _].
Qed.

Lemma xml_text_rstrip t : xml_text t → xml_text (rstrip t).
Proof.
  destruct (rstrip_split t) as (ws & Ht & _). intros H. rewrite Ht in H.
  by apply xml_text_app in H as [? _].
Qed.

Lemma xml_text_or_dash v : xml_text v → xml_text (or_dash v).
Proof. destruct v; [|done]. intros _. by repeat constructor. Qed.

Lemma xml_text_space_join a b :
  xml_text a → xml_text b → xml_text (space_join a b).
Proof.
  intros Ha Hb. unfold space_join. apply xml_text_app. split; [done|].
  apply xml_text_app. split; [by repeat constructor|done].
Qed.

Lemma xml_text_colon_join a b :
  xml_text a → xml_text b → xml_text (colon_join a b).
Proof.
  intros Ha Hb. unfold colon_join. apply xml_text_app. split; [done|].
  apply xml_text_app. split; [by repeat constructor|done].
Qed.

Lemma xml_text_filled t v : xml_text t → xml_text v → xml_text (filled t v).
Proof.
  intros Ht Hv. unfold filled.
  destruct (search t) as [[[pre m] post]|] eqn:Hs; [|done].
  apply search_Some in Hs as (-> & _).
  apply xml_text_app in Ht as [Hpre Ht]. apply xml_text_app in Ht as [_ Hpost].
  apply xml_text_app. split; [done|]. apply xml_text_app.
  split; [by apply xml_text_or_dash|done].
Qed.

Lemma split_colon_spec t lhs rhs :
  split_colon t = Some (lhs, rhs) → t = lhs ++ [colon] ++ rhs.
Proof.
  revert lhs. induction t as [|c t IH]; intros lhs; [done|]. cbn [split_colon].
  destruct (N.eqb_spec c colon) as [->|_]; [by intros [= <- <-]|].
  destruct (split_colon t) as [[l r]|]; [|done].
  intros [= <- <-]. by rewrite (IH l eq_refl).
Qed.

(** ** Paragraph fill *)


Lemma not_nonempty_strip t : negb (nonempty (strip t)) = blank t.
Proof. unfold blank. by destruct (strip t). Qed.

(** The next paragraph is never written: after the colon pattern the
    call goes to the fallback that appends. *)
Lemma next_fill_append doc p original v :
  next_fill doc p original v = append_fill doc p original v.
Proof. reflexivity. Qed.


(** For a plain value and a paragraph whose text is not blank, the
    strategies are tried in their order and the first that applies
    gives the one text the call assigns, to the matched paragraph. *)
Lemma fill_paragraph_chain doc p original v :
  plain v → paragraphs doc !! p = Some original → blank original = false →
  ∃ t, first_applicable paragraph_chain doc p original v = Some (p, t)
       ∧ fill_paragraph doc p v
         = (let* w := assign t in Ok (set_paragraph doc p w, true)).
Proof.
  intros Hplain Hp Hb. pose proof Hplain as [Hv _].
  unfold fill_paragraph. rewrite Hp, Hb, replace_underscores_filled by done.
  cbn [bind paragraph_chain first_applicable applies writes underscore_strategy].
  destruct (has_run original) eqn:Hrun.
  { rewrite bool_decide_true by (by apply filled_changes). eauto. }
  rewrite bool_decide_false by (by rewrite filled_no_run; auto).
  unfold colon_fill. cbn [colon_strategy next_strategy append_strategy applies writes index].
  rewrite next_fill_append. unfold append_fill.
  destruct (split_colon original) as [[lhs rhs]|] eqn:Hsplit; [|eauto].
  rewrite not_nonempty_strip. destruct (_ || _); eauto.
Qed.

(** With a literal value and XML texts a paragraph fill raises nothing,
    and the text it stores is an XML text again. *)
Lemma fill_paragraph_literal doc p original v :
  literal v → xml_text v →
  paragraphs doc !! p = Some original → blank original = false →
  xml_text original →
  ∃ w, fill_paragraph doc p v = Ok (set_paragraph doc p w, true) ∧ xml_text w.
Proof.
  intros Hv Hx Hp Hb Ho. unfold fill_paragraph.
  rewrite Hp, Hb, replace_underscores_filled by done. cbn [bind].
  assert (Hd : xml_text (or_dash v)) by (by apply xml_text_or_dash).
  case_bool_decide.
  { rewrite assign_xml by (by apply xml_text_filled). cbn [bind].
    eexists; split; [done|]. by apply xml_text_written, xml_text_filled. }
  unfold colon_fill. rewrite next_fill_append. unfold append_fill.
  assert (Ha : ∃ w, (let* w := assign (space_join (rstrip original) (or_dash v)) in
                     Ok (set_paragraph doc p w, true))
                    = Ok (set_paragraph doc p w, true) ∧ xml_text w).
  { rewrite assign_xml by (by apply xml_text_space_join; [apply xml_text_rstrip|]).
    eexists; split; [done|].
    by apply xml_text_written, xml_text_space_join; [apply xml_text_rstrip|]. }
  destruct (split_colon original) as [[lhs rhs]|] eqn:Hsplit; [|done].
  destruct (_ || _); [|done].
  apply split_colon_spec in Hsplit. rewrite Hsplit in Ho.
  apply xml_text_app in Ho as [Hl _].
  rewrite assign_xml by (by apply xml_text_colon_join; [apply xml_text_strip|]).
  eexists; split; [done|].
  by apply xml_text_written, xml_text_colon_join; [apply xml_text_strip|].
Qed.

(** ** Cells and the objects they show *)

Lemma cell_at_row doc ti r row c :
  tables doc !! ti ≫= (λ tb, tb !! r) = Some row → cell_at doc ti r c = row !! c.
Proof.
  unfold cell_at. intros H. destruct (tables doc !! ti) as [tb|]; [|done].
  cbn in *. by rewrite H.
Qed.

(** After a text was stored through one position, every position of
    that table that shows the same object reads it, and every other
    position reads what it read before. *)
Lemma cell_at_set_cell doc ti r c w x ti' r' c' :
  cell_at doc ti r c = Some x →
  cell_at (set_cell doc ti r c w) ti' r' c'
  = (λ y, if bool_decide (ti' = ti) then store (cell_id x) w y else y)
      <$> cell_at doc ti' r' c'.
Proof.
  intros Hx. unfold set_cell. rewrite Hx. unfold cell_at. cbn [tables].
  destruct (decide (ti' = ti)) as [->|Hne].
  - rewrite bool_decide_true by done. rewrite list_lookup_alter_eq.
    destruct (tables doc !! ti) as [tb|]; [|done]. cbn.
    rewrite list_lookup_fmap. destruct (tb !! r') as [row|]; [|done]. cbn.
    by rewrite list_lookup_fmap.
  - rewrite bool_decide_false by done. rewrite list_lookup_alter_ne by done.
    destruct (tables doc !! ti') as [tb|]; [|done]. cbn.
    destruct (tb !! r') as [row|]; [|done]. cbn.
    by destruct (row !! c').
Qed.


Lemma get_set_cell_other doc ti r c w x ti' r' c' y :
  cell_at doc ti r c = Some x → cell_at doc ti' r' c' = Some y →
  ti' ≠ ti ∨ cell_id y ≠ cell_id x →
  get_cell (set_cell doc ti r c w) ti' r' c' = get_cell doc ti' r' c'.
Proof.
  intros Hx Hy Hne. unfold get_cell.
  rewrite (cell_at_set_cell doc ti r c w x) by done. rewrite Hy. cbn.
  case_bool_decide; [|done]. unfold store. rewrite bool_decide_false; [done|].
  by destruct Hne.
Qed.

Lemma set_cell_twice doc ti r c w w' :
  set_cell (set_cell doc ti r c w) ti r c w' = set_cell doc ti r c w'.
Proof.
  destruct (cell_at doc ti r c) as [x|] eqn:Hx;
    [|by unfold set_cell; rewrite Hx, Hx].
  unfold set_cell at 1. rewrite (cell_at_set_cell doc ti r c w x) by done.
  rewrite Hx. cbn. rewrite bool_decide_true by done.
  unfold set_cell. rewrite Hx. cbn [paragraphs tables]. f_equal.
  rewrite list_alter_alter_eq. apply list_alter_ext; [|done]. intros tb _.
  cbn. rewrite <- list_fmap_compose. apply list_fmap_ext. intros _ row _.
  cbn. rewrite <- list_fmap_compose. apply list_fmap_ext. intros _ y _.
  unfold compose, store. rewrite (bool_decide_true (cell_id x = cell_id x)) by done.
  cbn [cell_id]. destruct (decide (cell_id y = cell_id x)) as [Hy|Hy].
  - rewrite !(bool_decide_true (cell_id y = cell_id x)) by done. cbn [cell_id].
    by rewrite bool_decide_true.
  - by rewrite !(bool_decide_false (cell_id y = cell_id x)).
Qed.

Lemma paragraphs_set_cell doc ti r c w :
  paragraphs (set_cell doc ti r c w) = paragraphs doc.
Proof. unfold set_cell. by destruct (cell_at doc ti r c). Qed.

(** ** Cell fill *)


(** With a literal value and a cell to the right of the matched one,
    the call assigns one text to that cell: the first run replaced, or
    the value alone over a blank or a dash, or the value appended. *)
Lemma fill_table_cell_right_neighbour doc m v ti r c row target :
  literal v →
  table m = Some ti → cell_pos m = Some (r, c) →
  tables doc !! ti ≫= (λ tb, tb !! r) = Some row →
  row !! (c + 1) = Some target →
  fill_table_cell_right doc m v
  = (let* w := assign (neighbour_text (cell_text target) v) in
     Ok (set_cell doc ti r (c + 1) w, true)).
Proof.
  intros Hv Ht Hc Hrow Htarget. unfold fill_table_cell_right, neighbour_text.
  rewrite Ht, Hc, Hrow, Htarget. cbn zeta.
  destruct (has_run (cell_text target)).
  - by rewrite replace_underscores_or_dash, replace_underscores_filled.
  - by destruct (_ || _).
Qed.

(** With a literal value and no cell to the right, the call assigns the
    text of the matched cell with its first run replaced; when the cell
    then reads as before, it assigns the text with the value
    appended. *)
Lemma fill_table_cell_right_fallback doc m v ti r c row cell :
  literal v →
  table m = Some ti → cell_pos m = Some (r, c) →
  tables doc !! ti ≫= (λ tb, tb !! r) = Some row →
  row !! (c + 1) = None → row !! c = Some cell →
  fill_table_cell_right doc m v
  = (let* w := assign (filled (cell_text cell) v) in
     if bool_decide (w = cell_text cell) then
       let* w' := assign (space_join (rstrip (cell_text cell)) (or_dash v)) in
       Ok (set_cell doc ti r c w', true)
     else Ok (set_cell doc ti r c w, true)).
Proof.
  intros Hv Ht Hc Hrow Hnone Hcell. unfold fill_table_cell_right.
  rewrite Ht, Hc, Hrow, Hnone, Hcell. cbn zeta.
  rewrite replace_underscores_or_dash, replace_underscores_filled by done.
  cbn [bind]. destruct (assign (filled (cell_text cell) v)) as [w|]; [|done].
  cbn [bind]. case_bool_decide; [|done].
  destruct (assign (space_join _ _)); [|done]. cbn [bind].
  by rewrite set_cell_twice.
Qed.

(** With a literal value and XML texts a cell fill on an existing cell
    raises nothing, and the text it stores is an XML text again. *)
Lemma fill_table_cell_right_literal doc m v ti r c row cell :
  literal v → xml_text v →
  table m = Some ti → cell_pos m = Some (r, c) →
  tables doc !! ti ≫= (λ tb, tb !! r) = Some row → row !! c = Some cell →
  Forall (λ x, xml_text (cell_text x)) row →
  ∃ c' w, fill_table_cell_right doc m v = Ok (set_cell doc ti r c' w, true)
          ∧ xml_text w.
Proof.
  intros Hv Hx Ht Hc Hrow Hcell Hxml.
  assert (Hd : xml_text (or_dash v)) by (by apply xml_text_or_dash).
  destruct (row !! (c + 1)) as [target|] eqn:Htarget.
  - rewrite (fill_table_cell_right_neighbour doc m v ti r c row target) by done.
    assert (Ht' : xml_text (cell_text target)).
    { by apply (Forall_lookup_1 _ _ _ _ Hxml Htarget). }
    assert (Hn : xml_text (neighbour_text (cell_text target) v)).
    { unfold neighbour_text. destruct (has_run _); [by apply xml_text_filled|].
      destruct (_ || _); [done|].
      by apply xml_text_space_join; [apply xml_text_rstrip|]. }
    rewrite assign_xml by done. cbn [bind].
    eexists _, _; split; [done|]. by apply xml_text_written.
  - rewrite (fill_table_cell_right_fallback doc m v ti r c row cell) by done.
    assert (Hc' : xml_text (cell_text cell)).
    { by apply (Forall_lookup_1 _ _ _ _ Hxml Hcell). }
    rewrite assign_xml by (by apply xml_text_filled). cbn [bind].
    case_bool_decide.
    + rewrite assign_xml by (by apply xml_text_space_join; [apply xml_text_rstrip|]).
      cbn [bind]. eexists _, _; split; [done|].
      by apply xml_text_written, xml_text_space_join; [apply xml_text_rstrip|].
    + eexists _, _; split; [done|]. by apply xml_text_written, xml_text_filled.
Qed.

(** ** Blank paragraphs *)

(** C10. [fill_paragraph] on a paragraph whose text is blank (empty or
    white space only) returns [False] and leaves the document as it is;
    on a paragraph whose text is not blank, whenever it returns, it
    returns [True]. *)
Theorem fill_paragraph_blank_returns_false doc p original value :
  paragraphs doc !! p = Some original →
  (blank original = true → fill_paragraph doc p value = Ok (doc, false))
  ∧ (blank original = false →
     ∀ d b, fill_paragraph doc p value = Ok (d, b) → b = true).
Proof.
  intros Hp. unfold fill_paragraph. rewrite Hp. split; intros Hb; rewrite Hb; [done|].
  intros d b. destruct (replace_underscores original value) as [t|e]; simpl; [|done].
  case_bool_decide; [destruct (assign t); simpl; congruence|].
  unfold colon_fill. rewrite next_fill_append. unfold append_fill.
  destruct (split_colon original) as [[lhs rhs]|];
    [destruct (_ || _)|]; destruct (assign _); simpl; congruence.
Qed.

(** ** Empty values *)


Lemma has_run_suffix l r : has_run (l ++ r) = false → has_run r = false.
Proof.
  unfold has_run. destruct (search (l ++ r)) eqn:Hlr; [done|]. intros _.
  destruct (search r) eqn:Hr; [|done]. exfalso.
  assert (Hnone : search r = None); [|congruence].
  apply search_None. intros k.
  rewrite search_None in Hlr. specialize (Hlr (length l + k)).
  by rewrite drop_app_add in Hlr.
Qed.

Lemma colon_condition original lhs rhs :
  search original = None → split_colon original = Some (lhs, rhs) →
  blank rhs || has_run rhs || is_dash (strip rhs)
  = blank rhs || is_dash (strip rhs).
Proof.
  intros Hs Hsplit. apply split_colon_spec in Hsplit.
  assert (Hrun : has_run (lhs ++ [colon] ++ rhs) = false).
  { unfold has_run. by rewrite <- Hsplit, Hs. }
  rewrite app_assoc in Hrun. apply has_run_suffix in Hrun. rewrite Hrun.
  by rewrite orb_false_r.
Qed.




(** ** Content that a fill keeps *)

Lemma meaningful_char_space c : isspace c = true → meaningful_char c = false.
Proof. intros H. unfold meaningful_char. by rewrite H. Qed.

(** Meaningful content does not reach across a non-empty stretch of
    other characters. *)
Lemma occurs_across s l m r :
  meaningful s → m ≠ [] → Forall (λ c, meaningful_char c = false) m →
  occurs s (l ++ m ++ r) → occurs s l ∨ occurs s r.
Proof.
  intros [Hne Hs] Hm Hsep (x & y & H).
  assert (Hin : ∀ c s', s = s' → c ∈ s' → c ∈ m → False).
  { intros c s' <- Hc1 Hc2. rewrite Forall_forall in Hs, Hsep.
    apply Hs in Hc1. apply Hsep in Hc2. congruence. }
  rewrite (app_assoc x s y) in H.
  apply app_eq_inv in H as [(k & Hl & Hy)|(k & Hxs & Hmr)].
  - left. exists x, k. by rewrite Hl, <- app_assoc.
  - symmetry in Hxs. apply app_eq_inv in Hxs as [(k' & Hl & Hs')|(k' & Hx & Hk)].
    + destruct k as [|c k].
      * left. exists x, []. rewrite app_nil_r in Hs'. subst. by rewrite app_nil_r.
      * exfalso. destruct m as [|c' m]; [done|].
        injection Hmr as -> _. apply (Hin c s eq_refl).
        -- rewrite Hs'. apply elem_of_app. right. by left.
        -- by left.
    + subst k. rewrite <- app_assoc in Hmr.
      apply app_eq_inv in Hmr as [(k'' & Hm' & Hsy)|(k'' & Hk' & Hr)].
      * destruct k'' as [|c k''].
        -- right. exists [], y. simpl in Hsy. by rewrite Hsy.
        -- exfalso. destruct s as [|c' s]; [done|].
           injection Hsy as -> _. apply (Hin c (c :: s) eq_refl); [by left|].
           rewrite Hm'. apply elem_of_app. right. by left.
      * right. exists k'', y. done.
Qed.

Lemma preserved_refl t : preserved t t.
Proof. by intros s _ H. Qed.

Lemma preserved_none old new :
  Forall (λ c, meaningful_char c = false) old → preserved old new.
Proof.
  intros Hold s [Hne Hs] (x & y & ->). exfalso.
  destruct s as [|c s]; [done|].
  apply Forall_app in Hold as [_ Hold]. apply Forall_app in Hold as [Hold _].
  apply Forall_cons_1 in Hold as [H1 _]. apply Forall_cons_1 in Hs as [H2 _].
  congruence.
Qed.

Lemma spaces_not_meaningful ws :
  Forall (λ c, isspace c = true) ws → Forall (λ c, meaningful_char c = false) ws.
Proof.
  intros H. eapply Forall_impl; [exact H|]. intros c. apply meaningful_char_space.
Qed.

Lemma underscores_not_meaningful m :
  Forall (λ c, c = underscore) m → Forall (λ c, meaningful_char c = false) m.
Proof. intros H. eapply Forall_impl; [exact H|]. by intros c ->. Qed.

Lemma blank_or_dash_not_meaningful t :
  blank t || is_dash (strip t) = true →
  Forall (λ c, meaningful_char c = false) t.
Proof.
  intros H. apply orb_true_iff in H as [H|H].
  - by apply spaces_not_meaningful, blank_Forall.
  - destruct (strip_split t) as (ws1 & ws2 & Ht & H1 & H2). rewrite Ht.
    apply Forall_app. split; [by apply spaces_not_meaningful|].
    apply Forall_app. split; [|by apply spaces_not_meaningful].
    unfold is_dash in H.
    repeat (apply orb_true_iff in H as [H|H]); apply bool_decide_eq_true in H;
      rewrite H; by repeat constructor.
Qed.

(** Replacing the first run keeps the content around it. *)
Lemma preserved_filled t v : preserved t (filled t v).
Proof.
  unfold filled. destruct (search t) as [[[pre m] post]|] eqn:Hs;
    [|apply preserved_refl].
  apply search_Some in Hs as (-> & Hlen & Hall & _).
  intros s Hmean Hocc.
  apply occurs_across in Hocc as [H|H]; try done.
  - by apply occurs_app_l.
  - by apply occurs_app_r, occurs_app_r.
  - destruct m; [simpl in Hlen; lia|done].
  - by apply underscores_not_meaningful.
Qed.

(** Appending after the text, trailing white space removed, keeps the
    content. *)
Lemma preserved_append t w : preserved t (space_join (rstrip t) w).
Proof.
  destruct (rstrip_split t) as (ws & Ht & Hws).
  intros s Hmean Hocc. unfold space_join. apply occurs_app_l.
  destruct ws as [|c ws]; [by rewrite app_nil_r in Ht; rewrite <- Ht|].
  rewrite Ht in Hocc. rewrite <- (app_nil_r (c :: ws)) in Hocc.
  apply occurs_across in Hocc as [H|H]; try done.
  - apply occurs_nil_inv in H. by destruct Hmean.
  - by apply spaces_not_meaningful.
Qed.

(** The colon rewrite keeps the content when the text after the colon
    is blank or a dash. *)
Lemma preserved_colon t lhs rhs w :
  split_colon t = Some (lhs, rhs) →
  blank rhs || is_dash (strip rhs) = true →
  preserved t (colon_join (strip lhs) w).
Proof.
  intros Ht Hrhs. apply split_colon_spec in Ht as ->.
  apply blank_or_dash_not_meaningful in Hrhs.
  destruct (strip_split lhs) as (ws1 & ws2 & Hl & H1 & H2).
  intros s Hmean Hocc. unfold colon_join.
  assert (Hocc1 : occurs s (lhs ++ [colon])).
  { destruct rhs as [|c rhs]; [by rewrite app_nil_r in Hocc|].
    rewrite app_assoc, <- (app_nil_r (c :: rhs)) in Hocc.
    apply occurs_across in Hocc as [H|H]; try done.
    apply occurs_nil_inv in H. by destruct Hmean. }
  assert (Hocc2 : occurs s (strip lhs ++ ws2 ++ [colon])).
  { rewrite Hl, <- !app_assoc in Hocc1.
    destruct ws1 as [|c ws1]; [done|].
    rewrite <- (app_nil_l (c :: ws1)), <- app_assoc in Hocc1.
    apply occurs_across in Hocc1 as [H|H]; try done.
    - apply occurs_nil_inv in H. by destruct Hmean.
    - by apply spaces_not_meaningful. }
  destruct ws2 as [|c ws2].
  - rewrite app_nil_l in Hocc2. rewrite app_assoc. apply occurs_app_l.
    destruct Hocc2 as (x & y & H). exists x, (y ++ [space]).
    change [colon; space] with ([colon] ++ [space]).
    by rewrite app_assoc, H, <- !app_assoc.
  - apply occurs_across in Hocc2 as [H|H]; try done.
    + by apply occurs_app_l.
    + apply occurs_app_r. by apply (occurs_app_l s [colon] ([space] ++ w)).
    + by apply spaces_not_meaningful.
Qed.

Lemma set_paragraph_preserved doc q0 w :
  (∀ old, paragraphs doc !! q0 = Some old → preserved old w) →
  ∀ q old, paragraphs doc !! q = Some old →
    ∃ new, paragraphs (set_paragraph doc q0 w) !! q = Some new ∧ preserved old new.
Proof.
  intros Hw q old Hq. cbn [set_paragraph paragraphs].
  destruct (decide (q0 = q)) as [->|Hne].
  - exists w. split; [|by apply Hw].
    apply list_lookup_insert_eq. by apply lookup_lt_Some in Hq.
  - exists old. rewrite list_lookup_insert_ne by done. split; [done|apply preserved_refl].
Qed.

(** What is stored keeps the content of what was assigned: a carriage
    return is white space. *)
Lemma preserved_written old new : preserved old new → preserved old (written new).
Proof.
  intros H s Hmean Hocc. destruct (H s Hmean Hocc) as (l & r & ->).
  exists (written l), (written r). rewrite !written_app. f_equal. f_equal.
  destruct Hmean as [_ Hs]. clear H Hocc. unfold written.
  induction Hs as [|c s Hc _ IH]; [done|]. cbn [map]. rewrite IH. f_equal.
  unfold newline. by destruct (N.eqb_spec c 13) as [->|].
Qed.

Lemma elem_of_cell_at doc ti r c x :
  cell_at doc ti r c = Some x →
  ∃ tb row, tb ∈ tables doc ∧ tables doc !! ti = Some tb ∧ row ∈ tb ∧ x ∈ row.
Proof.
  unfold cell_at. destruct (tables doc !! ti) as [tb|] eqn:Htb; [|done]. cbn.
  destruct (tb !! r) as [row|] eqn:Hrow; [|done]. cbn. intros Hx.
  exists tb, row. split; [by eapply list_elem_of_lookup_2|]. split; [done|].
  split; by eapply list_elem_of_lookup_2.
Qed.

Lemma set_cell_preserved doc ti r c w :
  coherent doc →
  (∀ old, get_cell doc ti r c = Some old → preserved old w) →
  ∀ ti' r' c' old, get_cell doc ti' r' c' = Some old →
    ∃ new, get_cell (set_cell doc ti r c w) ti' r' c' = Some new ∧ preserved old new.
Proof.
  intros Hcoh Hw ti' r' c' old Hq.
  destruct (cell_at doc ti r c) as [x|] eqn:Hx;
    [|unfold set_cell; rewrite Hx; eauto using preserved_refl].
  unfold get_cell in *. rewrite (cell_at_set_cell doc ti r c w x) by done.
  destruct (cell_at doc ti' r' c') as [y|] eqn:Hy; [|done].
  injection Hq as <-. cbn. case_bool_decide as Hti; [|eauto using preserved_refl].
  subst ti'. unfold store. case_bool_decide as Hid; [|eauto using preserved_refl].
  exists w. split; [done|]. rewrite Hx in Hw. cbn in Hw.
  apply elem_of_cell_at in Hx as (tb & row & Htb & Hl & Hrow & Hin).
  apply elem_of_cell_at in Hy as (tb' & row' & _ & Hl' & Hrow' & Hin').
  rewrite Hl in Hl'. injection Hl' as <-.
  rewrite (Hcoh tb row' row y x) by done. by apply Hw.
Qed.

(** For a plain value and XML texts, the text that the first strategy
    that applies gives is stored in the matched paragraph, as it reads
    back. *)
Lemma fill_paragraph_plain doc p original v :
  plain v → xml_text v →
  paragraphs doc !! p = Some original → blank original = false →
  xml_text original →
  ∃ t, first_applicable paragraph_chain doc p original v = Some (p, t)
       ∧ fill_paragraph doc p v = Ok (set_paragraph doc p (written t), true).
Proof.
  intros Hplain Hx Hp Hb Ho.
  destruct (fill_paragraph_chain doc p original v Hplain Hp Hb) as (t & Hfirst & Hfill).
  destruct (fill_paragraph_literal doc p original v (proj1 Hplain) Hx Hp Hb Ho)
    as (w & Hfill' & _).
  exists t. split; [done|]. rewrite Hfill in Hfill' |- *.
  destruct (assign t) as [w'|] eqn:Ha; [|done].
  by apply assign_Ok in Ha as [_ ->].
Qed.

(** For a plain value and XML texts, a paragraph fill keeps the
    meaningful content of every paragraph and does not touch the
    tables. *)
Lemma fill_paragraph_preserves doc p original v :
  plain v → xml_text v →
  paragraphs doc !! p = Some original → blank original = false →
  xml_text original →
  ∃ d, fill_paragraph doc p v = Ok (d, true)
    ∧ tables d = tables doc
    ∧ ∀ q old, paragraphs doc !! q = Some old →
        ∃ new, paragraphs d !! q = Some new ∧ preserved old new.
Proof.
  intros Hplain Hx Hp Hb Ho.
  destruct (fill_paragraph_plain doc p original v Hplain Hx Hp Hb Ho)
    as (t & Hfirst & ->).
  eexists. split; [done|]. split; [done|]. apply set_paragraph_preserved.
  intros old. rewrite Hp. intros [= <-]. apply preserved_written.
  cbn [paragraph_chain first_applicable applies writes underscore_strategy
       colon_strategy next_strategy append_strategy index] in Hfirst.
  destruct (has_run original) eqn:Hrun.
  { injection Hfirst as <-. apply preserved_filled. }
  assert (Hs : search original = None).
  { unfold has_run in Hrun. by destruct (search original). }
  destruct (split_colon original) as [[lhs rhs]|] eqn:Hsplit.
  - rewrite (colon_condition original lhs rhs) in Hfirst by done.
    destruct (blank rhs || is_dash (strip rhs)) eqn:Hcond; injection Hfirst as <-.
    + by eapply preserved_colon.
    + apply preserved_append.
  - injection Hfirst as <-. apply preserved_append.
Qed.

Lemma preserved_neighbour txt v : preserved txt (neighbour_text txt v).
Proof.
  unfold neighbour_text. destruct (has_run txt); [apply preserved_filled|].
  destruct (blank txt || is_dash (strip txt)) eqn:Hcond.
  - by apply preserved_none, blank_or_dash_not_meaningful.
  - apply preserved_append.
Qed.

(** For a literal value and XML texts, a cell fill keeps the meaningful
    content of every cell, on the path into the right neighbour and on
    the path into the matched cell itself: the label that was matched
    stays. *)
Lemma fill_table_cell_right_preserves doc m v ti r c row cell :
  literal v → xml_text v → coherent doc →
  table m = Some ti → cell_pos m = Some (r, c) →
  tables doc !! ti ≫= (λ tb, tb !! r) = Some row → row !! c = Some cell →
  Forall (λ x, xml_text (cell_text x)) row →
  ∃ d, fill_table_cell_right doc m v = Ok (d, true)
    ∧ paragraphs d = paragraphs doc
    ∧ ∀ ti' r' c' old, get_cell doc ti' r' c' = Some old →
        ∃ new, get_cell d ti' r' c' = Some new ∧ preserved old new.
Proof.
  intros Hv Hx Hcoh Ht Hc Hrow Hcell Hxml.
  assert (Hd : xml_text (or_dash v)) by (by apply xml_text_or_dash).
  assert (Hget : ∀ c', get_cell doc ti r c' = cell_text <$> row !! c').
  { intros c'. unfold get_cell. by rewrite (cell_at_row doc ti r row). }
  destruct (row !! (c + 1)) as [target|] eqn:Htarget.
  - rewrite (fill_table_cell_right_neighbour doc m v ti r c row target) by done.
    assert (Ht' : xml_text (cell_text target)).
    { by apply (Forall_lookup_1 _ _ _ _ Hxml Htarget). }
    rewrite assign_xml.
    + cbn [bind]. eexists. split; [done|]. split; [apply paragraphs_set_cell|].
      apply set_cell_preserved; [done|]. intros old. rewrite Hget, Htarget.
      intros [= <-]. apply preserved_written, preserved_neighbour.
    + unfold neighbour_text. destruct (has_run _); [by apply xml_text_filled|].
      destruct (_ || _); [done|].
      by apply xml_text_space_join; [apply xml_text_rstrip|].
  - rewrite (fill_table_cell_right_fallback doc m v ti r c row cell) by done.
    assert (Hc' : xml_text (cell_text cell)).
    { by apply (Forall_lookup_1 _ _ _ _ Hxml Hcell). }
    rewrite assign_xml by (by apply xml_text_filled). cbn [bind].
    case_bool_decide.
    + rewrite assign_xml by (by apply xml_text_space_join; [apply xml_text_rstrip|]).
      cbn [bind]. eexists. split; [done|]. split; [apply paragraphs_set_cell|].
      apply set_cell_preserved; [done|]. intros old. rewrite Hget, Hcell.
      intros [= <-]. apply preserved_written, preserved_append.
    + eexists. split; [done|]. split; [apply paragraphs_set_cell|].
      apply set_cell_preserved; [done|]. intros old. rewrite Hget, Hcell.
      intros [= <-]. apply preserved_written, preserved_filled.
Qed.

(** ** The range of the similarity score *)

Lemma j2len_get_in alo blo i l j :
  row_in alo blo i l →
  j2len_get l j = 0 ∨ (j2len_get l j + alo ≤ i ∧ j2len_get l j + blo ≤ j + 1).
Proof.
  induction 1 as [|[j' k'] l [H1 H2] _ IH]; simpl; [by left|].
  destruct (Nat.eqb_spec j' j) as [->|]; [by right|done].
Qed.

Lemma j2len_prev_in alo blo i l j :
  row_in alo blo i l → alo ≤ i → blo ≤ j →
  j2len_prev l j + 1 + alo ≤ i + 1 ∧ j2len_prev l j + 1 + blo ≤ j + 1.
Proof.
  intros Hl Hi Hj. destruct j as [|j]; simpl; [lia|].
  destruct (j2len_get_in alo blo i l j Hl) as [->|[? ?]]; lia.
Qed.

Lemma scan_row_in alo ahi blo bhi i j2len js : ∀ newj2len best,
  alo ≤ i → i < ahi →
  row_in alo blo i j2len →
  row_in alo blo (i + 1) newj2len →
  block_in alo ahi blo bhi best →
  row_in alo blo (i + 1) (scan_row blo bhi i j2len js newj2len best).1
  ∧ block_in alo ahi blo bhi (scan_row blo bhi i j2len js newj2len best).2.
Proof.
  induction js as [|j js IH]; intros newj2len best Hlo Hhi Hprev Hnew Hbest;
    cbn [scan_row]; [done|].
  destruct (Nat.ltb_spec j blo) as [|Hj]; [by apply IH|].
  destruct (Nat.leb_spec bhi j) as [|Hj']; [done|].
  destruct (j2len_prev_in alo blo i j2len j Hprev Hlo Hj) as [Hk1 Hk2].
  apply IH; try done.
  - constructor; [|done]. cbn [fst snd]. lia.
  - destruct (Nat.ltb_spec best.2 (j2len_prev j2len j + 1)); [|done].
    unfold block_in. cbn [fst snd]. lia.
Qed.

Lemma scan_rows_in a b alo ahi blo bhi n : ∀ i j2len best,
  alo ≤ i → i + n ≤ ahi →
  row_in alo blo i j2len →
  block_in alo ahi blo bhi best →
  block_in alo ahi blo bhi (scan_rows a b blo bhi (seq i n) j2len best).
Proof.
  induction n as [|n IH]; intros i j2len best Hlo Hhi Hrow Hbest;
    cbn [seq scan_rows]; [done|].
  set (js := match a !! i with Some c => b2j b c | None => [] end).
  pose proof (scan_row_in alo ahi blo bhi i j2len js [] best) as H.
  destruct (scan_row blo bhi i j2len js [] best) as [newj2len best'].
  destruct H as [H1 H2]; try done; try lia; [constructor|].
  cbn [fst snd] in *. apply IH; try done; try lia.
  by rewrite Nat.add_1_r in H1.
Qed.

Lemma extend_left_in fuel a b alo ahi blo bhi : ∀ best,
  block_in alo ahi blo bhi best →
  block_in alo ahi blo bhi (extend_left fuel a b alo blo best).
Proof.
  induction fuel as [|fuel IH]; intros [[i j] k] Hb; cbn [extend_left]; [done|].
  destruct (Nat.ltb_spec alo i); cbn [andb]; [|done].
  destruct (Nat.ltb_spec blo j); cbn [andb]; [|done].
  case_bool_decide; [|done]. apply IH.
  unfold block_in in *. cbn [fst snd] in *. lia.
Qed.

Lemma extend_right_in fuel a b alo ahi blo bhi : ∀ best,
  block_in alo ahi blo bhi best →
  block_in alo ahi blo bhi (extend_right fuel a b ahi bhi best).
Proof.
  induction fuel as [|fuel IH]; intros [[i j] k] Hb; cbn [extend_right]; [done|].
  destruct (Nat.ltb_spec (i + k) ahi); cbn [andb]; [|done].
  destruct (Nat.ltb_spec (j + k) bhi); cbn [andb]; [|done].
  case_bool_decide; [|done]. apply IH.
  unfold block_in in *. cbn [fst snd] in *. lia.
Qed.

Lemma find_longest_match_in a b alo ahi blo bhi :
  alo ≤ ahi → blo ≤ bhi →
  block_in alo ahi blo bhi (find_longest_match a b alo ahi blo bhi).
Proof.
  intros Ha Hb. unfold find_longest_match.
  apply extend_right_in, extend_left_in, scan_rows_in; try done; try lia.
  - constructor.
  - unfold block_in. cbn [fst snd]. lia.
Qed.

Lemma matches_le fuel a b : ∀ alo ahi blo bhi,
  alo ≤ ahi → blo ≤ bhi →
  matches fuel a b alo ahi blo bhi ≤ ahi - alo
  ∧ matches fuel a b alo ahi blo bhi ≤ bhi - blo.
Proof.
  induction fuel as [|fuel IH]; intros alo ahi blo bhi Ha Hb;
    cbn [matches]; [lia|].
  pose proof (find_longest_match_in a b alo ahi blo bhi Ha Hb) as Hin.
  destruct (find_longest_match a b alo ahi blo bhi) as [[i j] k].
  unfold block_in in Hin. cbn [fst snd] in Hin.
  destruct (Nat.eqb_spec k 0); [lia|].
  assert (Hl : (if (alo <? i) && (blo <? j)
                then matches fuel a b alo i blo j else 0) ≤ i - alo
               ∧ (if (alo <? i) && (blo <? j)
                  then matches fuel a b alo i blo j else 0) ≤ j - blo).
  { destruct ((alo <? i) && (blo <? j)); [apply IH; lia|lia]. }
  assert (Hr : (if (i + k <? ahi) && (j + k <? bhi)
                then matches fuel a b (i + k) ahi (j + k) bhi else 0) ≤ ahi - (i + k)
               ∧ (if (i + k <? ahi) && (j + k <? bhi)
                  then matches fuel a b (i + k) ahi (j + k) bhi else 0) ≤ bhi - (j + k)).
  { destruct ((i + k <? ahi) && (j + k <? bhi)); [apply IH; lia|lia]. }
  lia.
Qed.

(** The sum of the matching blocks does not depend on the fuel once the
    fuel exceeds the width of the window: the fuel [ratio] gives is
    enough. *)
Lemma matches_fuel a b f1 : ∀ f2 alo ahi blo bhi,
  alo ≤ ahi → blo ≤ bhi → ahi - alo < f1 → ahi - alo < f2 →
  matches f1 a b alo ahi blo bhi = matches f2 a b alo ahi blo bhi.
Proof.
  induction f1 as [|f1 IH]; intros f2 alo ahi blo bhi Ha Hb H1 H2; [lia|].
  destruct f2 as [|f2]; [lia|]. cbn [matches].
  pose proof (find_longest_match_in a b alo ahi blo bhi Ha Hb) as Hin.
  destruct (find_longest_match a b alo ahi blo bhi) as [[i j] k].
  unfold block_in in Hin. cbn [fst snd] in Hin.
  destruct (Nat.eqb_spec k 0); [done|].
  f_equal; [f_equal|].
  - destruct ((alo <? i) && (blo <? j)); [|done]. apply IH; lia.
  - destruct ((i + k <? ahi) && (j + k <? bhi)); [|done]. apply IH; lia.
Qed.

Lemma ratio_range a b : (0 <= ratio a b <= 1)%Q.
Proof.
  unfold ratio.
  destruct (matches_le (S (length a)) a b 0 (length a) 0 (length b)) as [H1 H2];
    [lia|lia|].
  set (M := matches _ _ _ _ _ _ _) in *.
  destruct (length a + length b) as [|n] eqn:Hn; [split; discriminate|].
  unfold Qle. cbn [Qnum Qden]. split; [lia|].
  rewrite <- Pos.of_nat_succ, Zpos_P_of_succ_nat. lia.
Qed.

Lemma ratio_empty_l b : b ≠ [] → (ratio [] b == 0)%Q.
Proof.
  intros Hb. unfold ratio. destruct b as [|c b]; [done|].
  destruct (matches_le (S (length (@nil char))) [] (c :: b) 0 0 0
              (length (c :: b))) as [H _]; [done|lia|].
  cbn [length Nat.add] in *.
  assert (matches 1 [] (c :: b) 0 0 0 (S (length b)) = 0) as -> by lia. done.
Qed.

Lemma ratio_empty_r a : a ≠ [] → (ratio a [] == 0)%Q.
Proof.
  intros Ha. unfold ratio. destruct a as [|c a]; [done|].
  destruct (matches_le (S (length (c :: a))) (c :: a) [] 0 (length (c :: a)) 0 0)
    as [_ H]; [lia|done|].
  cbn [length Nat.add] in *.
  assert (matches (S (S (length a))) (c :: a) [] 0 (S (length a)) 0 0 = 0) as ->
    by lia.
  done.
Qed.

(** [sim] is a score between 0 and 1, and it is 0 when one input is the
    empty string, or when exactly one of them is empty after
    normalisation. *)
Lemma sim_range a b : (0 <= sim a b <= 1)%Q.
Proof.
  unfold sim. destruct a, b; try (split; discriminate). apply ratio_range.
Qed.

(** [sim] is 0 when an input is the empty string, and when exactly one
    input is empty after normalisation. *)
Lemma sim_zero a b :
  (a = [] ∨ b = [] → (sim a b == 0)%Q)
  ∧ (norm a = [] → norm b ≠ [] → (sim a b == 0)%Q)
  ∧ (norm a ≠ [] → norm b = [] → (sim a b == 0)%Q).
Proof.
  split; [|split].
  - intros [-> | ->]; [done|]. by destruct a.
  - intros Ha Hb. unfold sim. destruct a, b; try done.
    rewrite Ha. by apply ratio_empty_l.
  - intros Ha Hb. unfold sim. destruct a, b; try done.
    rewrite Hb. by apply ratio_empty_r.
Qed.

(** ** The scan *)

Lemma elem_of_concat {A} (x : A) (ls : list (list A)) :
  x ∈ concat ls ↔ ∃ l, x ∈ l ∧ l ∈ ls.
Proof.
  induction ls as [|l ls IH]; simpl.
  - split; [by intros ?%elem_of_nil|]. by intros (l & _ & ?%elem_of_nil).
  - rewrite elem_of_app, IH. split.
    + intros [H|(l' & H1 & H2)]; [exists l|exists l']; split; auto; by constructor.
    + intros (l' & H1 & H2). apply elem_of_cons in H2 as [->|H2]; eauto.
Qed.

Lemma elem_of_iter_cells doc ti r c t :
  (ti, r, c, t) ∈ iter_cells doc ↔ get_cell doc ti r c = Some t.
Proof.
  unfold iter_cells, get_cell, cell_at. rewrite elem_of_concat. split.
  - intros (l & Hin & Hl).
    apply elem_of_lookup_imap in Hl as (ti' & tb & -> & Htb).
    apply elem_of_concat in Hin as (l & Hin & Hl).
    apply elem_of_lookup_imap in Hl as (r' & row & -> & Hrow).
    apply elem_of_lookup_imap in Hin as (c' & x & [= -> -> -> ->] & Hc).
    rewrite Htb. simpl. rewrite Hrow. simpl. by rewrite Hc.
  - intros H. destruct (tables doc !! ti) as [tb|] eqn:Htb; [|done]. simpl in H.
    destruct (tb !! r) as [row|] eqn:Hrow; [|done]. simpl in H.
    destruct (row !! c) as [x|] eqn:Hx; [|done]. injection H as <-.
    eexists. split; last first.
    { exact (elem_of_lookup_imap_2
               (λ t_i tb, concat (imap (λ r_i row,
                  imap (λ c_i x, (t_i, r_i, c_i, cell_text x)) row) tb))
               (tables doc) tb ti Htb). }
    apply elem_of_concat. eexists. split; last first.
    { exact (elem_of_lookup_imap_2
               (λ r_i row, imap (λ c_i x, (ti, r_i, c_i, cell_text x)) row)
               tb row r Hrow). }
    exact (elem_of_lookup_imap_2 (λ c_i x, (ti, r, c_i, cell_text x)) row x c Hx).
Qed.

(** The scan holds exactly the regions of the document whose text is not
    blank, each with the text the document has for it. *)
Lemma elem_of_scan doc r t :
  (r, t) ∈ scan doc ↔ region_text doc r = Some t ∧ blank t = false.
Proof.
  unfold scan, paragraph_regions, cell_regions.
  rewrite elem_of_app, !list_elem_of_filter, !list_elem_of_fmap. cbn [snd].
  split.
  - intros [[Hb H]|[Hb H]]; (split; [|done]).
    + destruct H as ([p t'] & [= -> ->] & Hin).
      apply elem_of_lookup_imap in Hin as (i & x & [= -> ->] & Hi). done.
    + destruct H as ([[[ti r'] c] t'] & [= -> ->] & Hin).
      by apply elem_of_iter_cells in Hin.
  - intros [Ht Hb]. destruct r as [p|ti r c]; [left|right]; (split; [done|]).
    + exists (p, t). split; [done|].
      by apply (elem_of_lookup_imap_2 (λ i t, (i, t)) _ _ p).
    + exists (ti, r, c, t). split; [done|]. by apply elem_of_iter_cells.
Qed.







(** ** Resolution *)

Lemma Qlt_bool_iff x y : Qlt_bool x y = true ↔ (x < y)%Q.
Proof.
  unfold Qlt_bool. rewrite negb_true_iff. split.
  - intros H. apply Qnot_le_lt. intros Hle. apply Qle_bool_iff in Hle. congruence.
  - intros H. destruct (Qle_bool y x) eqn:E; [|done].
    apply Qle_bool_iff in E. by apply Qlt_not_le in H.
Qed.

Lemma Qlt_bool_false x y : Qlt_bool x y = false ↔ (y <= x)%Q.
Proof.
  unfold Qlt_bool. rewrite negb_false_iff. apply Qle_bool_iff.
Qed.

Lemma paragraph_loop_scan an (its : list (nat * text)) : ∀ best,
  fold_left (paragraph_step an) its best
  = fold_left (scan_step an)
      (filter (λ rt, blank rt.2 = false)
         (map (λ it, (RParagraph it.1, it.2)) its)) best.
Proof.
  induction its as [|[p t] its IH]; intros best; [done|].
  cbn [map fold_left]. rewrite filter_cons. cbn [snd fst].
  unfold paragraph_step at 2. destruct (blank t) eqn:Hb.
  - rewrite decide_False by done. apply IH.
  - rewrite decide_True by done. cbn [fold_left]. rewrite IH. done.
Qed.

Lemma cell_loop_scan an (its : list (nat * nat * nat * text)) : ∀ best,
  fold_left (cell_step an) its best
  = fold_left (scan_step an)
      (filter (λ rt, blank rt.2 = false)
         (map (λ it : nat * nat * nat * text,
                 (RCell it.1.1.1 it.1.1.2 it.1.2, it.2)) its)) best.
Proof.
  induction its as [|[[[ti r] c] t] its IH]; intros best; [done|].
  cbn [map fold_left]. rewrite filter_cons. cbn [snd fst].
  unfold cell_step at 2. destruct (blank t) eqn:Hb.
  - rewrite decide_False by done. apply IH.
  - rewrite decide_True by done. cbn [fold_left]. rewrite IH. done.
Qed.

Lemma find_best_anchor_scan doc anchor :
  find_best_anchor doc anchor =
  match fold_left (scan_step (norm anchor)) (scan doc) None with
  | None => None
  | Some m => if Qlt_bool (score m) min_score then None else Some m
  end.
Proof.
  unfold find_best_anchor, scan, paragraph_regions, cell_regions.
  by rewrite fold_left_app, paragraph_loop_scan, cell_loop_scan.
Qed.

Lemma score_match_of an rt : score (match_of an rt) = region_score an rt.2.
Proof. unfold match_of. by destruct rt.1. Qed.

(** The loop keeps the first region of the highest score. *)
Lemma scan_loop_spec an (l : list (Region * text)) :
  match fold_left (scan_step an) l None with
  | None => l = []
  | Some m =>
      ∃ i rt, l !! i = Some rt ∧ m = match_of an rt
        ∧ (∀ j rt', l !! j = Some rt' → (region_score an rt'.2 <= score m)%Q)
        ∧ (∀ j rt', j < i → l !! j = Some rt' → (region_score an rt'.2 < score m)%Q)
  end.
Proof.
  induction l as [|x l IH] using rev_ind; [done|].
  rewrite fold_left_app. cbn [fold_left]. unfold scan_step at 1.
  destruct (fold_left (scan_step an) l None) as [m|].
  - destruct IH as (i & rt & Hi & Hm & Hmax & Hfirst).
    cbn [improves]. destruct (Qlt_bool (score m) _) eqn:Hlt.
    + apply Qlt_bool_iff in Hlt.
      exists (length l), x. rewrite score_match_of.
      split; [by rewrite lookup_app_r, Nat.sub_diag by lia|]. split; [done|].
      split.
      * intros j rt' Hj. apply lookup_snoc_Some in Hj as [[_ Hj]|[_ <-]].
        -- apply Hmax in Hj. lra.
        -- lra.
      * intros j rt' Hji Hj. rewrite lookup_app_l in Hj by done.
        apply Hmax in Hj. lra.
    + apply Qlt_bool_false in Hlt.
      apply lookup_lt_Some in Hi as Hil.
      exists i, rt. split; [by rewrite lookup_app_l|]. split; [done|]. split.
      * intros j rt' Hj. apply lookup_snoc_Some in Hj as [[_ Hj]|[_ <-]]; eauto.
      * intros j rt' Hji Hj. rewrite lookup_app_l in Hj by lia. eauto.
  - subst l. cbn [improves app].
    exists 0, x. rewrite score_match_of. split; [done|]. split; [done|]. split.
    + intros [|j] rt'; [|done]. intros [= <-]. lra.
    + intros j rt' Hj. lia.
Qed.

Lemma find_best_anchor_spec doc anchor :
  (find_best_anchor doc anchor = None ↔
   ∀ rt, rt ∈ scan doc → (region_score (norm anchor) rt.2 < min_score)%Q)
  ∧ ∀ m, find_best_anchor doc anchor = Some m →
      ∃ i rt, scan doc !! i = Some rt ∧ m = match_of (norm anchor) rt
        ∧ (min_score <= score m)%Q
        ∧ (∀ j rt', scan doc !! j = Some rt' →
             (region_score (norm anchor) rt'.2 <= score m)%Q)
        ∧ (∀ j rt', j < i → scan doc !! j = Some rt' →
             (region_score (norm anchor) rt'.2 < score m)%Q).
Proof.
  rewrite find_best_anchor_scan.
  pose proof (scan_loop_spec (norm anchor) (scan doc)) as H.
  destruct (fold_left _ _ _) as [m|].
  - destruct H as (i & rt & Hi & Hm & Hmax & Hfirst).
    destruct (Qlt_bool (score m) min_score) eqn:Hlt.
    + apply Qlt_bool_iff in Hlt. split; [|done]. split; [|done].
      intros _ rt' Hin. apply list_elem_of_lookup in Hin as [j Hj].
      apply Hmax in Hj. lra.
    + apply Qlt_bool_false in Hlt. split.
      * split; [done|]. intros Hall. exfalso.
        apply list_elem_of_lookup_2 in Hi. apply Hall in Hi.
        rewrite Hm, score_match_of in Hlt. lra.
      * intros m' [= <-]. exists i, rt. eauto 10.
  - rewrite H. split; [|done]. split; [|done].
    intros _ rt Hin. by apply elem_of_nil in Hin.
Qed.


Lemma region_score_contains an t :
  an ≠ [] → contains (norm t) an = true → (boost <= region_score an t)%Q.
Proof.
  intros Han Hc. unfold region_score. rewrite Hc.
  destruct an; [done|]. cbn [nonempty andb].
  destruct (Qlt_bool _ _) eqn:E; [lra|]. by apply Qlt_bool_false in E.
Qed.

Lemma region_score_not_contains an t :
  contains (norm t) an = false → region_score an t = sim an t.
Proof. intros Hc. unfold region_score. by rewrite Hc, andb_false_r. Qed.

(** C2. When the normalised anchor is not empty and occurs in the
    normalised text of a scanned region, that region scores at least
    0.95, the resolver returns a match that scores at least as much, and
    the region it selects is none of the scanned regions that do not
    hold the anchor and whose raw ratio is below that boosted score. *)
Theorem substring_boost_selects doc anchor i r t :
  scan doc !! i = Some (r, t) →
  norm anchor ≠ [] →
  contains (norm t) (norm anchor) = true →
  (boost <= region_score (norm anchor) t)%Q
  ∧ ∃ m k rt,
      find_best_anchor doc anchor = Some m
      ∧ scan doc !! k = Some rt ∧ m = match_of (norm anchor) rt
      ∧ (region_score (norm anchor) t <= score m)%Q
      ∧ ∀ j r' t',
          scan doc !! j = Some (r', t') →
          contains (norm t') (norm anchor) = false →
          (sim (norm anchor) t' < region_score (norm anchor) t)%Q →
          rt.1 ≠ r' ∧ (sim (norm anchor) t' < score m)%Q.
Proof.
  intros Hi Han Hc.
  pose proof (region_score_contains _ _ Han Hc) as Hb. split; [done|].
  destruct (find_best_anchor_spec doc anchor) as [Hnone Hsome].
  destruct (find_best_anchor doc anchor) as [m|] eqn:Hf.
  - destruct (Hsome m eq_refl) as (k & rt & Hk & Hm & _ & Hmax & _).
    pose proof (Hmax i (r, t) Hi) as Hle. cbn [snd] in Hle.
    exists m, k, rt. do 4 (split; [done|]).
    intros j r' t' Hj Hnc Hlow. split; [|lra].
    intros Heq. destruct rt as [r'' t'']. cbn [fst] in Heq. subst r''.
    apply list_elem_of_lookup_2, elem_of_scan in Hk as [Hk _].
    apply list_elem_of_lookup_2, elem_of_scan in Hj as [Hj _].
    assert (t'' = t') as -> by congruence.
    rewrite Hm, score_match_of in Hle. cbn [snd] in Hle.
    rewrite (region_score_not_contains _ t') in Hle by done. lra.
  - exfalso. apply list_elem_of_lookup_2 in Hi.
    apply (proj1 Hnone eq_refl) in Hi. cbn [snd] in Hi.
    unfold min_score, boost in *. lra.
Qed.

(** ** The loop over the fields *)

Lemma fill_one_not_found doc nf f d nf' :
  fill_one doc nf f = Ok (d, nf') → nf `prefix_of` nf'.
Proof.
  destruct f as [anchor value]. unfold fill_one.
  destruct (negb (nonempty anchor)); [by intros [= _ <-]|].
  destruct (find_best_anchor doc anchor) as [m|];
    [|intros [= _ <-]; by apply prefix_app_r].
  destruct (kind m).
  - destruct (paragraph m); [|done].
    destruct (fill_paragraph _ _ _); simpl; [|done]. by intros [= _ <-].
  - destruct (fill_table_cell_right _ _ _); simpl; [|done]. by intros [= _ <-].
Qed.

Lemma fill_fields_not_found fields : ∀ doc nf d nf',
  fill_fields doc nf fields = Ok (d, nf') → nf `prefix_of` nf'.
Proof.
  induction fields as [|f fields IH]; intros doc nf d nf'; simpl.
  - by intros [= _ <-].
  - destruct (fill_one doc nf f) as [[d1 nf1]|] eqn:H1; simpl; [|done].
    intros H2. apply fill_one_not_found in H1. apply IH in H2.
    by etrans.
Qed.

Lemma fill_fields_app pre : ∀ doc nf post,
  fill_fields doc nf (pre ++ post)
  = let* st := fill_fields doc nf pre in fill_fields (fst st) (snd st) post.
Proof.
  induction pre as [|f pre IH]; intros doc nf post; simpl; [done|].
  destruct (fill_one doc nf f) as [[d1 nf1]|]; simpl; [apply IH|done].
Qed.

(** C6. When the fields before an anchor have been processed, giving the
    document [doc1] and the list [nf1], and the resolution of the anchor
    (a non-empty label) fails on [doc1], the pass for this anchor raises
    nothing, keeps [doc1] with the earlier mutations, and appends the
    label to the list; the loop goes on with the remaining fields from
    there, and the labels recorded up to and including this one stay at
    the head of the final list, in input order. *)
Theorem fill_unresolved_anchor doc nf pre anchor value post doc1 nf1 :
  anchor ≠ [] →
  fill_fields doc nf pre = Ok (doc1, nf1) →
  find_best_anchor doc1 anchor = None →
  fill_one doc1 nf1 (anchor, value) = Ok (doc1, nf1 ++ [anchor])
  ∧ fill_fields doc nf (pre ++ (anchor, value) :: post)
    = fill_fields doc1 (nf1 ++ [anchor]) post
  ∧ ∀ d nf', fill_fields doc nf (pre ++ (anchor, value) :: post) = Ok (d, nf') →
      nf1 ++ [anchor] `prefix_of` nf'.
Proof.
  intros Ha Hpre Hnone.
  assert (H1 : fill_one doc1 nf1 (anchor, value) = Ok (doc1, nf1 ++ [anchor])).
  { unfold fill_one. destruct anchor; [done|]. simpl. by rewrite Hnone. }
  assert (H2 : fill_fields doc nf (pre ++ (anchor, value) :: post)
               = fill_fields doc1 (nf1 ++ [anchor]) post).
  { rewrite fill_fields_app, Hpre. cbn [bind fst snd fill_fields]. by rewrite H1. }
  split; [done|split; [done|]].
  intros d nf'. rewrite H2. apply fill_fields_not_found.
Qed.

(** ** What a fill may touch *)

Lemma set_paragraph_shape doc q w : doc_shape (set_paragraph doc q w) = doc_shape doc.
Proof. unfold doc_shape, set_paragraph. cbn. by rewrite length_insert. Qed.

Lemma set_cell_shape doc ti r c w : doc_shape (set_cell doc ti r c w) = doc_shape doc.
Proof.
  unfold set_cell. destruct (cell_at doc ti r c) as [x|]; [|done].
  unfold doc_shape. cbn [paragraphs tables]. f_equal.
  generalize (tables doc). intros tbs. revert ti.
  induction tbs as [|tb tbs IH]; intros [|ti]; cbn; try done.
  - f_equal. clear IH. induction tb as [|row tb IH]; cbn; [done|].
    by rewrite length_fmap, IH.
  - by rewrite IH.
Qed.

Lemma set_paragraph_other doc q w i :
  i ≠ q → paragraphs (set_paragraph doc q w) !! i = paragraphs doc !! i.
Proof. intros H. cbn. by rewrite list_lookup_insert_ne. Qed.

Lemma fill_paragraph_touches doc p value d b :
  fill_paragraph doc p value = Ok (d, b) →
  doc_shape d = doc_shape doc
  ∧ tables d = tables doc
  ∧ (b = false → d = doc)
  ∧ ∀ i, i ≠ p → paragraphs d !! i = paragraphs doc !! i.
Proof.
  assert (Hset : ∀ t,
            (let* w := assign t in Ok (set_paragraph doc p w, true)) = Ok (d, b) →
            doc_shape d = doc_shape doc
            ∧ tables d = tables doc
            ∧ (b = false → d = doc)
            ∧ ∀ i, i ≠ p → paragraphs d !! i = paragraphs doc !! i).
  { intros t. destruct (assign t) as [w|]; cbn [bind]; [|done].
    intros [= <- <-]. split; [apply set_paragraph_shape|]. split; [done|].
    split; [done|]. intros i Hi. by apply set_paragraph_other. }
  unfold fill_paragraph.
  destruct (paragraphs doc !! p) as [original|] eqn:Hp; [|done].
  destruct (blank original); [by intros [= <- <-]|].
  destruct (replace_underscores original value) as [t|e]; cbn [bind]; [|done].
  case_bool_decide; [apply Hset|].
  unfold colon_fill. rewrite next_fill_append. unfold append_fill.
  destruct (split_colon original) as [[lhs rhs]|]; [|apply Hset].
  destruct (_ || _); apply Hset.
Qed.

(** X1. Whatever the value, when [fill_paragraph] returns it has left
    the tables and the number of paragraphs as they were, and no
    paragraph but the matched one has a new text: the paragraph after
    it is never written. When it returns [False] the document is the
    one it was given. *)
Theorem fill_paragraph_frame doc p value d b :
  fill_paragraph doc p value = Ok (d, b) →
  doc_shape d = doc_shape doc
  ∧ tables d = tables doc
  ∧ (b = false → d = doc)
  ∧ ∀ i, i ≠ p → paragraphs d !! i = paragraphs doc !! i.
Proof. apply fill_paragraph_touches. Qed.

Lemma fill_table_cell_right_touches doc m value d b :
  fill_table_cell_right doc m value = Ok (d, b) →
  b = true
  ∧ ∃ ti r c c' x w,
      table m = Some ti ∧ cell_pos m = Some (r, c)
      ∧ (c' = c + 1 ∨ c' = c ∧ cell_at doc ti r (c + 1) = None)
      ∧ cell_at doc ti r c' = Some x
      ∧ d = set_cell doc ti r c' w.
Proof.
  unfold fill_table_cell_right.
  destruct (table m) as [ti|]; [|done].
  destruct (cell_pos m) as [[r c]|]; [|done].
  destruct (tables doc !! ti ≫= _) as [row|] eqn:Hrow; [|done].
  assert (Hat : ∀ c', cell_at doc ti r c' = row !! c')
    by (intros c'; by apply cell_at_row).
  destruct (row !! (c + 1)) as [target|] eqn:Htarget.
  - cbn zeta.
    match goal with |- (let* w := ?e in _) = _ → _ => destruct e as [w|] end;
      cbn [bind]; [|done].
    intros [= <- <-]. split; [done|]. exists ti, r, c, (c + 1), target, w.
    rewrite Hat. eauto 10.
  - destruct (row !! c) as [cell|] eqn:Hcell; [|done]. cbn zeta.
    destruct (replace_underscores _ _) as [t|]; cbn [bind]; [|done].
    destruct (assign t) as [w|]; cbn [bind]; [|done].
    case_bool_decide.
    + destruct (assign _) as [w'|]; cbn [bind]; [|done].
      intros [= <- <-]. split; [done|]. exists ti, r, c, c, cell, w'.
      rewrite set_cell_twice, !Hat. eauto 10.
    + intros [= <- <-]. split; [done|]. exists ti, r, c, c, cell, w.
      rewrite !Hat. eauto 10.
Qed.

(** X2. Whatever the value, when [fill_table_cell_right] returns it
    returns [True], it has left the paragraphs and the shape of every
    table as they were, and it has stored one text in one cell object:
    the one at the right of the matched position when the row has one,
    else the matched one. Every position of that table that shows this
    object reads the new text, the matched position included when a
    merged cell covers both; every other position of the document
    reads what it read before. *)
Theorem fill_table_cell_right_frame_any doc m value d b :
  fill_table_cell_right doc m value = Ok (d, b) →
  b = true
  ∧ doc_shape d = doc_shape doc
  ∧ paragraphs d = paragraphs doc
  ∧ ∃ ti r c c' x w,
      table m = Some ti ∧ cell_pos m = Some (r, c)
      ∧ (c' = c + 1 ∨ c' = c ∧ cell_at doc ti r (c + 1) = None)
      ∧ cell_at doc ti r c' = Some x
      ∧ ∀ ti' r' c'' y, cell_at doc ti' r' c'' = Some y →
          cell_at d ti' r' c''
          = Some (if bool_decide (ti' = ti ∧ cell_id y = cell_id x)
                  then mkCell (cell_id y) w else y).
Proof.
  intros H. apply fill_table_cell_right_touches in H
    as (-> & ti & r & c & c' & x & w & Ht & Hc & Hc' & Hx & ->).
  split; [done|]. split; [apply set_cell_shape|].
  split; [apply paragraphs_set_cell|].
  exists ti, r, c, c', x, w. do 4 (split; [done|]).
  intros ti' r' c'' y Hy. rewrite (cell_at_set_cell doc ti r c' w x) by done.
  rewrite Hy. cbn. f_equal. unfold store.
  destruct (decide (ti' = ti)) as [->|Hti].
  - rewrite (bool_decide_true (ti = ti)) by done.
    destruct (decide (cell_id y = cell_id x)) as [Hid|Hid].
    + rewrite !bool_decide_true by done. by rewrite Hid.
    + rewrite !bool_decide_false; [done|by intros [_ ?]|done].
  - rewrite (bool_decide_false (ti' = ti)) by done.
    rewrite bool_decide_false; [done|by intros [? _]].
Qed.

(** ** What the resolver returns, and what a pass can raise *)

Lemma region_score_range an t : (0 <= region_score an t <= 1)%Q.
Proof.
  unfold region_score. pose proof (sim_range an t) as H.
  destruct (_ && _); [|done].
  destruct (Qlt_bool _ _); [unfold boost; split; discriminate|done].
Qed.

Lemma find_best_anchor_region doc anchor m :
  find_best_anchor doc anchor = Some m →
  ∃ r t, m = match_of (norm anchor) (r, t)
         ∧ region_text doc r = Some t ∧ blank t = false
         ∧ (min_score <= score m)%Q.
Proof.
  intros H. destruct (find_best_anchor_spec doc anchor) as [_ Hsome].
  destruct (Hsome m H) as (i & [r t] & Hi & Hm & Hmin & _).
  apply list_elem_of_lookup_2, elem_of_scan in Hi as [Ht Hb]. eauto 10.
Qed.

(** X3. A match the resolver returns names a region of the document
    whose text is not blank: a paragraph match holds the position of an
    existing paragraph and no table, a cell match holds an existing
    (table, row, column) and no paragraph; its score is that region's
    boosted score and lies between 0.62 and 1. *)
Theorem find_best_anchor_valid doc anchor m :
  find_best_anchor doc anchor = Some m →
  (min_score <= score m <= 1)%Q
  ∧ ((kind m = KParagraph ∧ table m = None ∧ cell_pos m = None
      ∧ ∃ p t, paragraph m = Some p ∧ paragraphs doc !! p = Some t
               ∧ blank t = false ∧ score m = region_score (norm anchor) t)
     ∨ (kind m = KCell ∧ paragraph m = None
        ∧ ∃ ti r c t, table m = Some ti ∧ cell_pos m = Some (r, c)
                      ∧ get_cell doc ti r c = Some t ∧ blank t = false
                      ∧ score m = region_score (norm anchor) t)).
Proof.
  intros H. apply find_best_anchor_region in H as (r & t & -> & Ht & Hb & Hmin).
  split.
  - split; [done|]. rewrite score_match_of. apply region_score_range.
  - destruct r as [p|ti r c]; [left|right]; cbn; eauto 12.
Qed.

Lemma expand_escape_raises m c s e :
  expand_escape m c s = Raise e → e = TemplateError.
Proof. unfold expand_escape. repeat case_match; congruence. Qed.

Lemma expand_raises fuel m : ∀ repl e,
  expand fuel m repl = Raise e → e = TemplateError.
Proof.
  induction fuel as [|fuel IH]; intros [|c s] e; cbn [expand]; try congruence.
  destruct (c =? backslash)%N.
  - destruct s as [|x s']; [congruence|].
    destruct (expand_escape m x s') as [pr|e'] eqn:He; cbn [bind].
    + destruct (expand fuel m pr.2) eqn:Hx; cbn [bind]; [done|].
      intros [= <-]. by eapply IH.
    + intros [= <-]. by eapply expand_escape_raises.
  - destruct (expand fuel m s) eqn:Hx; cbn [bind]; [done|].
    intros [= <-]. by eapply IH.
Qed.

(** [replace_underscores] raises only what [re] raises for the
    template, and only for a value with a backslash. *)
Lemma replace_underscores_raises t v e :
  replace_underscores t v = Raise e → e = TemplateError ∧ ¬ literal v.
Proof.
  intros H. split.
  - unfold replace_underscores in H.
    destruct (search t) as [[[pre m] post]|]; [|done].
    unfold expand_template in H.
    destruct (expand _ _ _) eqn:Hx; cbn [bind] in H; [done|].
    injection H as <-. by eapply expand_raises.
  - intros Hv. by rewrite replace_underscores_filled in H by done.
Qed.

Lemma assign_raised_by {A} t (k : text → result A) v e :
  (∀ w, k w ≠ Raise e) → (let* w := assign t in k w) = Raise e → raised_by v e.
Proof.
  intros Hk. destruct (assign t) as [w|e'] eqn:Ha; cbn [bind].
  - intros H. by destruct (Hk w).
  - intros [= <-]. right. by apply assign_Raise in Ha as [-> _].
Qed.

Lemma fill_paragraph_raises doc p v e :
  is_Some (paragraphs doc !! p) →
  fill_paragraph doc p v = Raise e → raised_by v e.
Proof.
  intros [original Hp]. unfold fill_paragraph. rewrite Hp.
  destruct (blank original); [done|].
  destruct (replace_underscores original v) as [t|e'] eqn:Hr; cbn [bind];
    [|intros [= <-]; left; by eapply replace_underscores_raises].
  case_bool_decide; [by apply assign_raised_by|].
  unfold colon_fill. rewrite next_fill_append. unfold append_fill.
  destruct (split_colon original) as [[lhs rhs]|]; [|by apply assign_raised_by].
  destruct (_ || _); by apply assign_raised_by.
Qed.

Lemma fill_table_cell_right_raises doc m v ti r c e :
  table m = Some ti → cell_pos m = Some (r, c) →
  is_Some (get_cell doc ti r c) →
  fill_table_cell_right doc m v = Raise e → raised_by v e.
Proof.
  intros Ht Hc [t Hcell]. unfold fill_table_cell_right. rewrite Ht, Hc.
  unfold get_cell, cell_at in Hcell.
  destruct (tables doc !! ti) as [tb|]; [|done]. cbn in *.
  destruct (tb !! r) as [row|]; [|done]. cbn in *.
  destruct (row !! c) as [cell|]; [|done].
  assert (Hrepl : ∀ txt e', replace_underscores txt (or_dash v) = Raise e' →
                    raised_by v e').
  { intros txt e' H. apply replace_underscores_raises in H as [-> H]. left.
    split; [done|]. intros Hv. by apply H, literal_or_dash. }
  destruct (row !! (c + 1)) as [target|]; cbn zeta.
  - destruct (has_run (cell_text target)).
    + destruct (replace_underscores _ _) as [t'|e'] eqn:Hr; cbn [bind];
        [by apply assign_raised_by|].
      intros [= <-]. by eapply Hrepl.
    + destruct (_ || _); by apply assign_raised_by.
  - destruct (replace_underscores _ _) as [t'|e'] eqn:Hr; cbn [bind];
      [|intros [= <-]; by eapply Hrepl].
    destruct (assign t') as [w|e1] eqn:Ha; cbn [bind];
      [|intros [= <-]; right; by apply assign_Raise in Ha as [-> _]].
    case_bool_decide; [|done]. by apply assign_raised_by.
Qed.

Lemma fill_one_raises doc nf f e :
  fill_one doc nf f = Raise e → raised_by f.2 e.
Proof.
  destruct f as [anchor value]. unfold fill_one. cbn [snd].
  destruct (negb (nonempty anchor)); [done|].
  destruct (find_best_anchor doc anchor) as [m|] eqn:Hf; [|done].
  apply find_best_anchor_region in Hf as (r & t & -> & Ht & _).
  destruct r as [p|ti r c]; unfold match_of; cbn [fst snd kind paragraph].
  - destruct (fill_paragraph doc p value) eqn:Hp; cbn [bind]; [done|].
    intros [= <-]. eapply fill_paragraph_raises; [|done]. by exists t.
  - destruct (fill_table_cell_right _ _ _) eqn:Hc; cbn [bind]; [done|].
    intros [= <-]. eapply fill_table_cell_right_raises; [..|done]; try done.
Qed.

(** X4. The assertions of the loop and of the cell fill never fail and
    no index is out of range: a pass over the fields raises only what
    [re] raises for a value it cannot take as a replacement template,
    which needs a value with a backslash, or the [ValueError] of the
    assignment of a text that XML cannot hold. *)
Theorem fill_raises_template_or_value doc nf fields e :
  fill_fields doc nf fields = Raise e →
  (e = TemplateError ∧ Exists (λ f : text * text, ¬ literal f.2) fields)
  ∨ e = ValueError.
Proof.
  revert doc nf. induction fields as [|f fields IH]; intros doc nf; cbn [fill_fields];
    [done|].
  destruct (fill_one doc nf f) as [[d1 nf1]|e'] eqn:H1; cbn [bind].
  - intros H. apply IH in H as [[-> H] | ->]; [left|by right].
    split; [done|]. by apply Exists_cons_tl.
  - intros [= <-]. apply fill_one_raises in H1 as [[-> H] | ->]; [left|by right].
    split; [done|]. by apply Exists_cons_hd.
Qed.

(** ** The pass over the fields *)

Lemma xml_document_set_paragraph doc q w :
  xml_document doc → xml_text w → xml_document (set_paragraph doc q w).
Proof.
  intros [Hp Ht] Hw. split; [|done]. cbn [set_paragraph paragraphs].
  by apply Forall_insert.
Qed.

Lemma xml_document_set_cell doc ti r c w :
  xml_document doc → xml_text w → xml_document (set_cell doc ti r c w).
Proof.
  intros [Hp Ht] Hw. unfold set_cell.
  destruct (cell_at doc ti r c) as [x|]; [|done]. split; [done|].
  cbn [tables]. apply Forall_alter; [done|]. intros tb _ Htb.
  apply Forall_fmap. eapply Forall_impl; [exact Htb|]. intros row Hrow. cbn.
  apply Forall_fmap. eapply Forall_impl; [exact Hrow|]. intros y Hy. cbn.
  unfold store. by case_bool_decide.
Qed.

Lemma fill_one_literal doc nf anchor value :
  literal value → xml_text value → xml_document doc →
  ∃ d nf', fill_one doc nf (anchor, value) = Ok (d, nf') ∧ xml_document d.
Proof.
  intros Hv Hx Hdoc. unfold fill_one.
  destruct (negb (nonempty anchor)); [eauto|].
  destruct (find_best_anchor doc anchor) as [m|] eqn:Hf; [|eauto].
  apply find_best_anchor_region in Hf as (r & t & -> & Ht & Hb & _).
  destruct r as [p|ti r c]; unfold match_of; cbn [fst snd kind paragraph].
  - cbn [region_text] in Ht.
    assert (Hxt : xml_text t) by (by apply (Forall_lookup_1 _ _ _ _ (proj1 Hdoc) Ht)).
    destruct (fill_paragraph_literal doc p t value Hv Hx Ht Hb Hxt) as (w & -> & Hw).
    cbn [bind fst]. eexists _, _. split; [done|].
    by apply xml_document_set_paragraph.
  - cbn [region_text] in Ht. unfold get_cell, cell_at in Ht.
    destruct (tables doc !! ti) as [tb|] eqn:Htb; [|done]. cbn in Ht.
    destruct (tb !! r) as [row|] eqn:Hrow; [|done]. cbn in Ht.
    destruct (row !! c) as [cell|] eqn:Hcell; [|done].
    assert (Hxrow : Forall (λ x, xml_text (cell_text x)) row).
    { pose proof (Forall_lookup_1 _ _ _ _ (proj2 Hdoc) Htb) as H1.
      by apply (Forall_lookup_1 _ _ _ _ H1 Hrow). }
    edestruct (fill_table_cell_right_literal doc
                 (mkMatch KCell (region_score (norm anchor) t) None (Some ti)
                    (Some (r, c))) value ti r c row cell)
      as (c' & w & Hf & Hw); try done.
    + by rewrite Htb.
    + rewrite Hf. cbn [bind fst]. eexists _, _. split; [done|].
      by apply xml_document_set_cell.
Qed.

(** X5. When no value holds a backslash, and the values and the texts
    of the document are XML texts, the pass over the fields raises
    nothing: it returns a document, whose texts are XML texts again,
    and the list of unresolved labels, whatever the labels are. *)
Theorem fill_literal_values_returns doc nf fields :
  Forall (λ f : text * text, literal f.2 ∧ xml_text f.2) fields →
  xml_document doc →
  ∃ d nf', fill_fields doc nf fields = Ok (d, nf') ∧ xml_document d.
Proof.
  intros Hall. revert doc nf.
  induction Hall as [|[anchor value] fields [Hv Hx] _ IH]; intros doc nf Hdoc;
    cbn [fill_fields]; [eauto|].
  destruct (fill_one_literal doc nf anchor value Hv Hx Hdoc) as (d & nf' & -> & Hd).
  cbn [bind fst snd]. by apply IH.
Qed.

Lemma fill_one_shape doc nf f d nf' :
  fill_one doc nf f = Ok (d, nf') → doc_shape d = doc_shape doc.
Proof.
  destruct f as [anchor value]. unfold fill_one.
  destruct (negb (nonempty anchor)); [by intros [= <- _]|].
  destruct (find_best_anchor doc anchor) as [m|]; [|by intros [= <- _]].
  destruct (kind m).
  - destruct (paragraph m) as [p|]; [|done].
    destruct (fill_paragraph doc p value) as [[d1 b]|] eqn:Hp; cbn [bind]; [|done].
    intros [= <- _]. by apply fill_paragraph_touches in Hp as [? _].
  - destruct (fill_table_cell_right doc m value) as [[d1 b]|] eqn:Hc;
      cbn [bind]; [|done].
    intros [= <- _].
    apply fill_table_cell_right_touches in Hc as (_ & ? & ? & ? & ? & ? & ? & H).
    destruct H as (_ & _ & _ & _ & ->). apply set_cell_shape.
Qed.

(** X6. A pass over the fields creates and destroys no region: when it
    returns, the document has as many paragraphs, tables, rows and
    cells per row as before. *)
Theorem fill_keeps_shape fields : ∀ doc nf d nf',
  fill_fields doc nf fields = Ok (d, nf') → doc_shape d = doc_shape doc.
Proof.
  induction fields as [|f fields IH]; intros doc nf d nf'; cbn [fill_fields].
  - by intros [= <- _].
  - destruct (fill_one doc nf f) as [[d1 nf1]|] eqn:H1; cbn [bind fst snd]; [|done].
    intros H2. apply IH in H2. apply fill_one_shape in H1. congruence.
Qed.

Lemma fill_one_records doc nf f d nf' :
  fill_one doc nf f = Ok (d, nf') →
  nf' = nf ∨ (nf' = nf ++ [f.1] ∧ nonempty f.1 = true ∧ d = doc
              ∧ find_best_anchor doc f.1 = None).
Proof.
  destruct f as [anchor value]. unfold fill_one. cbn [fst].
  destruct (nonempty anchor) eqn:Hne; cbn [negb]; [|intros [= _ <-]; by left].
  destruct (find_best_anchor doc anchor) as [m|];
    [|intros [= <- <-]; right; done].
  destruct (kind m).
  - destruct (paragraph m); [|done].
    destruct (fill_paragraph _ _ _); cbn [bind]; [|done]. intros [= _ <-]. by left.
  - destruct (fill_table_cell_right _ _ _); cbn [bind]; [|done].
    intros [= _ <-]. by left.
Qed.

(** X7. The labels a pass reports are labels of the input, non-empty,
    in the order of the input: the list it returns is the list it
    started with followed by a subsequence of the non-empty labels of
    the fields. *)
Theorem fill_reports_input_labels fields : ∀ doc nf d nf',
  fill_fields doc nf fields = Ok (d, nf') →
  ∃ l, nf' = nf ++ l
       ∧ l `sublist_of` filter (λ a, nonempty a = true) (map fst fields).
Proof.
  induction fields as [|f fields IH]; intros doc nf d nf'; cbn [fill_fields].
  - intros [= _ <-]. exists []. by rewrite app_nil_r.
  - destruct (fill_one doc nf f) as [[d1 nf1]|] eqn:H1; cbn [bind fst snd]; [|done].
    intros H2. apply IH in H2 as (l & -> & Hl).
    cbn [map]. rewrite filter_cons.
    apply fill_one_records in H1 as [->|(-> & Hne & _)].
    + exists l. split; [done|]. case_decide; [by apply sublist_cons|done].
    + exists (f.1 :: l). split; [by rewrite <- app_assoc|].
      rewrite decide_True by done. by apply sublist_skip.
Qed.

(** X8. Fields with an empty label are skipped: dropping them from the
    input changes neither the document nor the reported labels, nor
    whether the pass raises. *)
Theorem fill_skips_empty_labels fields : ∀ doc nf,
  fill_fields doc nf (filter (λ f : text * text, nonempty f.1 = true) fields)
  = fill_fields doc nf fields.
Proof.
  induction fields as [|[anchor value] fields IH]; intros doc nf; [done|].
  rewrite filter_cons. cbn [fst]. destruct (nonempty anchor) eqn:Hne.
  - rewrite decide_True by done. cbn [fill_fields].
    destruct (fill_one doc nf (anchor, value)) as [[d1 nf1]|]; cbn [bind fst snd];
      [apply IH|done].
  - rewrite decide_False by congruence. rewrite IH. cbn [fill_fields].
    unfold fill_one. by rewrite Hne.
Qed.

Lemma find_best_anchor_blank_document doc anchor :
  (∀ r t, region_text doc r = Some t → blank t = true) →
  find_best_anchor doc anchor = None.
Proof.
  intros Hblank. apply find_best_anchor_spec. intros [r t] Hin.
  apply elem_of_scan in Hin as [Ht Hb]. apply Hblank in Ht. congruence.
Qed.

(** X9. On a document whose paragraphs and cells are all blank (an
    empty document among them) nothing is resolved and nothing is
    written: the pass returns the document as it was and reports every
    non-empty label, in input order. *)
Theorem fill_blank_document doc nf fields :
  (∀ r t, region_text doc r = Some t → blank t = true) →
  fill_fields doc nf fields
  = Ok (doc, nf ++ filter (λ a, nonempty a = true) (map fst fields)).
Proof.
  intros Hblank. revert nf.
  induction fields as [|[anchor value] fields IH]; intros nf; cbn [fill_fields].
  - by rewrite app_nil_r.
  - cbn [map fst]. rewrite filter_cons. unfold fill_one.
    destruct (nonempty anchor) eqn:Hne; cbn [negb].
    + rewrite find_best_anchor_blank_document by done. cbn [bind fst snd].
      rewrite IH, decide_True by done. by rewrite <- app_assoc.
    + cbn [bind fst snd]. rewrite IH, decide_False by congruence. done.
Qed.

(** ** The first run, without the search *)

Lemma run_length_app_run m post :
  Forall (λ c, c = underscore) m → run_length post = 0 →
  run_length (m ++ post) = length m.
Proof.
  intros Hm Hpost. induction Hm as [|c m -> _ IH]; [done|].
  cbn. by rewrite IH.
Qed.

Lemma first_run_search t pre m post :
  first_run t pre m post → search t = Some (pre, m, post).
Proof.
  intros (-> & Hlen & Hm & Hpost & Hfirst).
  induction pre as [|c pre IH].
  - cbn [app]. destruct m as [|u m]; [cbn in Hlen; lia|].
    cbn [app search]. change (u :: m ++ post) with ((u :: m) ++ post).
    rewrite run_length_app_run by done.
    rewrite (proj2 (Nat.leb_le _ _)) by done.
    by rewrite take_app_length, drop_app_length.
  - cbn [app search].
    pose proof (Hfirst 0 ltac:(cbn; lia)) as H0. rewrite drop_0 in H0.
    rewrite (proj2 (Nat.leb_gt _ _)) by exact H0.
    rewrite IH; [done|]. intros k Hk. apply (Hfirst (S k)). cbn. lia.
Qed.

(** X10. For a value without a backslash, [replace_underscores] puts
    the value (the dash when it is empty) in place of the first run of
    three or more underscores and keeps every other character, later
    runs included; a text in which no such run starts is returned as it
    is, whatever the value. *)
Theorem replace_underscores_literal_value t v :
  (∀ pre m post, literal v → first_run t pre m post →
     replace_underscores t v = Ok (pre ++ or_dash v ++ post))
  ∧ (no_run t → replace_underscores t v = Ok t).
Proof.
  split.
  - intros pre m post Hv Hrun. apply first_run_search in Hrun.
    by apply (replace_underscores_literal t v pre m post).
  - intros Hno. apply replace_underscores_no_run. unfold has_run.
    by rewrite (proj2 (search_None t) Hno).
Qed.

(** X11. For a value without a backslash that is not itself a run of
    underscores, and a paragraph whose text is not blank, the strategies
    are tried in their order (underscores, colon, next paragraph,
    append), the first that applies gives the one text that the call
    stores, in the matched paragraph and as it reads back, and the call
    returns [True]. The next-paragraph strategy applies to no
    paragraph: where it would, the value is appended to the matched
    paragraph. The value and the text of the paragraph are XML
    texts. *)
Theorem fill_paragraph_first_strategy doc p original v :
  plain v → xml_text v →
  paragraphs doc !! p = Some original → blank original = false →
  xml_text original →
  applies next_strategy doc p original v = false
  ∧ ∃ t, first_applicable paragraph_chain doc p original v = Some (p, t)
         ∧ fill_paragraph doc p v = Ok (set_paragraph doc p (written t), true).
Proof. intros. split; [done|]. by apply fill_paragraph_plain. Qed.

(** X12. [sim] and the boosted score of a region lie between 0
    and 1. *)
Theorem sim_in_unit_interval a b :
  (0 <= sim a b <= 1)%Q ∧ (0 <= region_score a b <= 1)%Q.
Proof. split; [apply sim_range|apply region_score_range]. Qed.

(** ** Normal forms *)

Lemma rstrip_idem s : rstrip (rstrip s) = rstrip s.
Proof.
  induction s as [|c s IH]; [done|]. cbn [rstrip].
  destruct (rstrip s) as [|c' r] eqn:Hr.
  - destruct (isspace c) eqn:Hc; [done|]. cbn. by rewrite Hc.
  - cbn [rstrip]. cbn [rstrip] in IH. by rewrite IH.
Qed.

Lemma rstrip_head c s :
  isspace c = false → ∃ r, rstrip (c :: s) = c :: r.
Proof.
  intros Hc. cbn [rstrip]. destruct (rstrip s); [rewrite Hc|]; eauto.
Qed.

Lemma lstrip_head s :
  lstrip s = [] ∨ ∃ c r, lstrip s = c :: r ∧ isspace c = false.
Proof.
  induction s as [|c s IH]; [by left|]. cbn [lstrip].
  destruct (isspace c) eqn:Hc; [done|right; eauto].
Qed.

Lemma strip_idem s : strip (strip s) = strip s.
Proof.
  unfold strip. destruct (lstrip_head s) as [->|(c & r & -> & Hc)]; [done|].
  destruct (rstrip_head c r Hc) as [r' Hr]. rewrite Hr.
  cbn [lstrip]. rewrite Hc, <- Hr. apply rstrip_idem.
Qed.

Lemma strip_fixed s :
  strip s = s ↔ rstrip s = s ∧ match s with c :: _ => isspace c = false | [] => True end.
Proof.
  split.
  - intros H. split.
    + rewrite <- H. unfold strip. apply rstrip_idem.
    + destruct s as [|c s]; [done|]. unfold strip in H.
      destruct (isspace c) eqn:Hc; [|done]. exfalso.
      destruct (lstrip_head (c :: s)) as [Hl|(c' & r & Hl & Hc')].
      * by rewrite Hl in H.
      * rewrite Hl in H. destruct (rstrip_head c' r Hc') as [r' Hr].
        rewrite Hr in H. congruence.
  - intros [Hr Hh]. unfold strip. destruct s as [|c s]; [done|].
    cbn [lstrip]. by rewrite Hh.
Qed.

Lemma collapse_ws_nil s : collapse_ws s = [] → s = [].
Proof.
  induction s as [|c s IH]; [done|]. cbn [collapse_ws].
  destruct (isspace c); [|done]. destruct s as [|c' s']; [done|].
  destruct (isspace c'); [|done]. intros H. by apply IH in H.
Qed.

Lemma collapse_ws_idem s : collapse_ws (collapse_ws s) = collapse_ws s.
Proof.
  induction s as [|c s IH]; [done|]. cbn [collapse_ws].
  destruct (isspace c) eqn:Hc.
  - destruct s as [|c' s']; [done|].
    destruct (isspace c') eqn:Hc'; [done|].
    cbn [collapse_ws] in *. rewrite Hc' in *.
    change (isspace space) with true. cbn iota. rewrite Hc'. by rewrite IH.
  - cbn [collapse_ws]. by rewrite Hc, IH.
Qed.

Lemma collapse_ws_stripped s : strip s = s → strip (collapse_ws s) = collapse_ws s.
Proof.
  rewrite !strip_fixed. intros [Hr Hh]. split.
  - clear Hh. induction s as [|c s IH]; [done|].
    cbn [rstrip] in Hr.
    destruct (rstrip s) as [|c' r] eqn:Hrs.
    + destruct (isspace c) eqn:Hc; [done|]. injection Hr as <-.
      cbn [collapse_ws]. rewrite Hc. cbn [collapse_ws rstrip]. by rewrite Hc.
    + injection Hr as Hs.
      assert (Hne : collapse_ws s ≠ []).
      { intros H. apply collapse_ws_nil in H. by subst. }
      specialize (IH Hs).
      cbn [collapse_ws]. destruct (isspace c) eqn:Hc.
      * destruct s as [|c'' s']; [done|].
        change (rstrip (if isspace c'' then collapse_ws (c'' :: s')
                        else space :: collapse_ws (c'' :: s'))
                = (if isspace c'' then collapse_ws (c'' :: s')
                   else space :: collapse_ws (c'' :: s'))).
        destruct (isspace c''); [exact IH|].
        cbn [rstrip]. rewrite IH. by destruct (collapse_ws (c'' :: s')).
      * change (rstrip (c :: collapse_ws s) = c :: collapse_ws s).
        cbn [rstrip]. rewrite IH. by destruct (collapse_ws s).
  - destruct s as [|c s]; [done|]. cbn [collapse_ws]. by rewrite Hh.
Qed.

(** X13. Normalisation is idempotent, and its result is in normal
    form: no leading or trailing white space, and no white space but
    single spaces. This holds for a case mapping that is idempotent,
    commutes with the collapsing of white space and keeps stripped
    texts stripped, as [str.lower] does. *)
Theorem norm_idempotent s :
  case_mapping_laws →
  norm (norm s) = norm s
  ∧ strip (norm s) = norm s
  ∧ collapse_ws (norm s) = norm s.
Proof.
  intros (H1 & H2 & H3).
  assert (Hs : strip (norm s) = norm s).
  { unfold norm. apply collapse_ws_stripped, H3, strip_idem. }
  assert (Hc : collapse_ws (norm s) = norm s).
  { unfold norm. apply collapse_ws_idem. }
  split; [|done].
  unfold norm at 1. rewrite Hs. unfold norm.
  by rewrite H2, H1, collapse_ws_idem.
Qed.

(** ** The loader *)

Lemma value_str_stripped v : strip (value_str v) = value_str v.
Proof. destruct v; cbn [value_str]; try apply strip_idem. done. Qed.

Lemma field_of_item_stripped item f :
  field_of_item item = Some f → strip f.1 = f.1 ∧ strip f.2 = f.2 ∧ f.1 ≠ [].
Proof.
  unfold field_of_item. destruct item as [| | | | |?|d]; try done.
  destruct (nonempty _) eqn:Hne; [|done]. intros [= <-]. cbn [fst snd].
  split; [apply strip_idem|]. split; [apply value_str_stripped|].
  intros H. by rewrite H in Hne.
Qed.

Lemma field_of_list_item_stripped item f :
  field_of_list_item item = Some f → strip f.1 = f.1 ∧ strip f.2 = f.2.
Proof.
  unfold field_of_list_item. destruct item as [| | | | |?|d]; try done.
  destruct d as [|kv d]; [done|].
  destruct (dict_get (kv :: d) (lit "anchor")) as [a|].
  - destruct (dict_get (kv :: d) (lit "value")) as [v|].
    + intros [= <-]. split; [apply strip_idem|apply value_str_stripped].
    + destruct kv as [k v]. destruct d; [|done]. intros [= <-].
      split; [apply strip_idem|apply value_str_stripped].
  - destruct kv as [k v]. destruct d; [|done]. intros [= <-].
    split; [apply strip_idem|apply value_str_stripped].
Qed.

Lemma Forall_omap {A B} (f : A → option B) (P : B → Prop) l :
  (∀ x y, f x = Some y → P y) → Forall P (omap f l).
Proof.
  intros Hf. induction l as [|x l IH]; [constructor|]. cbn.
  destruct (f x) as [y|] eqn:Hx; [constructor; eauto|done].
Qed.

Lemma length_omap {A B} (f : A → option B) l : length (omap f l) ≤ length l.
Proof. induction l as [|x l IH]; [done|]. cbn. destruct (f x); cbn; lia. Qed.

(** X14. Every label and every value the loader returns has no
    leading and no trailing white space, whatever the shape of the JSON
    data. *)
Theorem load_fields_stripped data fields :
  load_fields data = Loaded fields →
  Forall (λ f : text * text, strip f.1 = f.1 ∧ strip f.2 = f.2) fields.
Proof.
  unfold load_fields. destruct data as [| | | | |items|d]; try done.
  - intros [= <-]. apply Forall_omap. apply field_of_list_item_stripped.
  - assert (Hflat : Forall (λ f : text * text, strip f.1 = f.1 ∧ strip f.2 = f.2)
                      (map (λ kv : text * json, (strip kv.1, value_str kv.2)) d)).
    { apply Forall_forall. intros f Hf.
      apply list_elem_of_fmap in Hf as ([k v] & -> & _). cbn [fst snd].
      split; [apply strip_idem|apply value_str_stripped]. }
    destruct (dict_get d (lit "fields")) as [v|]; [|by intros [= <-]].
    destruct v; try (by intros [= <-]).
    intros [= <-]. apply Forall_omap. intros x y Hxy.
    by apply field_of_item_stripped in Hxy as (? & ? & _).
Qed.

(** X15. When the data is a dict whose [fields] entry is a list, only
    that list is read: the other keys of the dict do not matter, every
    label returned is non-empty, and there is at most one field per
    item of the list. *)
Theorem load_fields_fields_list d items :
  dict_get d (lit "fields") = Some (JList items) →
  ∃ fields,
    load_fields (JDict d) = Loaded fields
    ∧ Forall (λ f : text * text, f.1 ≠ []) fields
    ∧ length fields ≤ length items
    ∧ ∀ d', dict_get d' (lit "fields") = Some (JList items) →
        load_fields (JDict d') = Loaded fields.
Proof.
  intros Hd. exists (omap field_of_item items).
  split; [by unfold load_fields; rewrite Hd|].
  split; [|split; [apply length_omap|]].
  - apply Forall_omap. intros x y Hxy.
    by apply field_of_item_stripped in Hxy as (_ & _ & ?).
  - intros d' Hd'. unfold load_fields. by rewrite Hd'.
Qed.

(** X16. The loader rejects exactly the data that is neither a dict nor
    a list, and then nothing is filled; for a dict or a list it returns
    fields, however odd the items are. *)
Theorem load_fields_unsupported data doc :
  (load_fields data = UnsupportedFormat ↔
   (∀ d, data ≠ JDict d) ∧ (∀ items, data ≠ JList items))
  ∧ (fill_loaded doc data = None ↔ load_fields data = UnsupportedFormat).
Proof.
  split.
  - unfold load_fields. destruct data as [| | | | |items|d].
    1-5: by (split; [intros _; split; intros ? ?|]).
    + split; [done|]. intros [_ H]. by destruct (H items).
    + split; [by repeat case_match|]. intros [H _]. by destruct (H d).
  - unfold fill_loaded. by destruct (load_fields data).
Qed.

(** ** Paths *)

Lemma split_on_cons sep s : ∃ p ps, split_on sep s = p :: ps.
Proof.
  induction s as [|c s (p & ps & IH)]; [by eexists _, _|]. cbn [split_on].
  destruct (c =? sep)%N; [by eexists _, _|]. rewrite IH. by eexists _, _.
Qed.

Lemma split_on_app sep p q :
  split_on sep (p ++ sep :: q) = split_on sep p ++ split_on sep q.
Proof.
  induction p as [|c p IH]; cbn [app split_on].
  - by rewrite N.eqb_refl.
  - destruct (c =? sep)%N; [by rewrite IH|].
    rewrite IH. by destruct (split_on_cons sep p) as (x & xs & ->).
Qed.

Lemma split_on_no_sep sep s : has_char sep s = false → split_on sep s = [s].
Proof.
  induction s as [|c s IH]; [done|]. cbn [has_char existsb split_on].
  rewrite N.eqb_sym. destruct (c =? sep)%N; [done|]. cbn [orb].
  intros H. by rewrite (IH H).
Qed.

Lemma resolve_part_None current raw :
  raw ≠ [] → (∀ d, current ≠ JDict d) → (∀ l, current ≠ JList l) →
  resolve_part current raw = None.
Proof.
  intros Hraw Hd Hl. unfold resolve_part.
  destruct (_ && _).
  - destruct (split_first _ _) as [[key index_part]|]; [|done].
    destruct key.
    + destruct current; try done; try (by destruct (py_int _)).
      by destruct (Hl items).
    + destruct current; try done. by destruct (Hd items).
  - destruct current; try done. by destruct (Hd items).
Qed.

Lemma resolve_parts_scalar current parts :
  scalar current → Exists (λ part, part ≠ []) parts →
  resolve_parts current parts = JNull.
Proof.
  intros Hs. induction 1 as [part parts Hpart|part parts _ IH]; cbn [resolve_parts].
  - destruct part as [|c part]; [done|].
    rewrite resolve_part_None; try done; by destruct current.
  - destruct part as [|c part]; [done|].
    rewrite resolve_part_None; try done; by destruct current.
Qed.

Lemma resolve_parts_null parts : resolve_parts JNull parts = JNull.
Proof.
  induction parts as [|part parts IH]; [done|]. cbn [resolve_parts].
  destruct part as [|c part]; [done|]. by rewrite resolve_part_None.
Qed.

Lemma resolve_parts_app ps : ∀ current qs,
  resolve_parts current (ps ++ qs) = resolve_parts (resolve_parts current ps) qs.
Proof.
  induction ps as [|part ps IH]; intros current qs; [done|]. cbn [app resolve_parts].
  destruct part as [|c part]; [apply IH|].
  destruct (resolve_part current (c :: part)); [apply IH|].
  by rewrite resolve_parts_null.
Qed.

Lemma split_on_all_empty path :
  Forall (λ part, part = []) (split_on dot path) → Forall (λ c, c = dot) path.
Proof.
  induction path as [|c path IH]; [done|]. cbn [split_on].
  destruct (N.eqb_spec c dot) as [->|Hc].
  - intros H. apply Forall_cons_1 in H as [_ H]. constructor; auto.
  - destruct (split_on_cons dot path) as (x & xs & ->).
    intros H. by apply Forall_cons_1 in H as [? _].
Qed.

(** X17. Paths compose: resolving [p.q] is resolving [q] in what [p]
    resolves to, where a missing key, a failed index and a JSON null
    are all Python's [None], from which every further part gives
    [None]. *)
Theorem resolve_path_compose data p q :
  resolve_path data (p ++ dot :: q) = resolve_path (resolve_path data p) q
  ∧ resolve_path JNull q = JNull.
Proof.
  unfold resolve_path. split; [|apply resolve_parts_null].
  by rewrite split_on_app, resolve_parts_app.
Qed.

(** X18. Empty parts of a path are skipped: the empty path gives the
    data itself, and a dot at the start, a dot at the end or a doubled
    dot changes nothing. *)
Theorem resolve_path_empty_parts data p q :
  resolve_path data [] = data
  ∧ resolve_path data (dot :: p) = resolve_path data p
  ∧ resolve_path data (p ++ [dot]) = resolve_path data p
  ∧ resolve_path data (p ++ dot :: dot :: q) = resolve_path data (p ++ dot :: q).
Proof.
  unfold resolve_path. split; [done|]. split; [done|]. split.
  - by rewrite split_on_app, resolve_parts_app.
  - by rewrite !split_on_app, !resolve_parts_app.
Qed.

(** X19. Below a value that is neither a dict nor a list there is
    nothing: every path with a character other than the dot resolves to
    [None] in a string, a number, a boolean or a null. *)
Theorem resolve_path_scalar data path c :
  scalar data → c ∈ path → c ≠ dot → resolve_path data path = JNull.
Proof.
  intros Hs Hc Hdot. unfold resolve_path. apply resolve_parts_scalar; [done|].
  apply not_Forall_Exists; [intros x; apply _|]. intros Hall.
  apply split_on_all_empty in Hall. rewrite Forall_forall in Hall. auto.
Qed.

Lemma has_char_app c a b : has_char c (a ++ b) = has_char c a || has_char c b.
Proof. unfold has_char. apply existsb_app. Qed.

Lemma split_first_app sep k i :
  has_char sep k = false → split_first sep (k ++ sep :: i) = Some (k, i).
Proof.
  induction k as [|c k IH]; cbn [app split_first has_char existsb].
  - by rewrite N.eqb_refl.
  - rewrite N.eqb_sym. destruct (c =? sep)%N; [done|]. cbn [orb].
    intros H. by rewrite (IH H).
Qed.

Lemma drop_last_snoc s c : drop_last (s ++ [c]) = s.
Proof.
  unfold drop_last. rewrite length_app. cbn [length].
  rewrite Nat.add_sub. by rewrite take_app_length.
Qed.

Lemma ends_with_snoc s c : ends_with c (s ++ [c]) = true.
Proof. unfold ends_with. rewrite last_snoc. apply N.eqb_refl. Qed.

Lemma resolve_part_index d k i :
  simple_key k →
  resolve_part (JDict d) (k ++ lbracket :: i ++ [rbracket])
  = match get_or_none d k with
    | JNull => None
    | JList items =>
        match py_int i with
        | Some n =>
            if (n <? 0)%Z || (Z.of_nat (length items) <=? n)%Z then None
            else items !! Z.to_nat n
        | None => None
        end
    | _ => None
    end.
Proof.
  intros (Hne & _ & Hbr). unfold resolve_part.
  rewrite has_char_app. cbn [has_char existsb]. rewrite N.eqb_refl, orb_true_r.
  change (k ++ lbracket :: i ++ [rbracket]) with (k ++ (lbracket :: i) ++ [rbracket]).
  rewrite app_assoc, ends_with_snoc, drop_last_snoc. cbn [andb].
  rewrite split_first_app by done.
  destruct k as [|c k]; [done|].
  destruct (get_or_none d (c :: k)); try done; by destruct (py_int i).
Qed.

(** X20. A part that is a plain key reads that key of a dict, [None]
    when it is missing. A part [key[i]] reads the key and then the
    element of index [int(i)] of the list found there: it is [None]
    when the index is negative or not below the length of the list,
    when [i] is no integer, and when the key does not hold a list. *)
Theorem resolve_path_key_index d k i :
  simple_key k → has_char dot i = false →
  resolve_path (JDict d) k = get_or_none d k
  ∧ (∀ items n x,
       get_or_none d k = JList items → py_int i = Some n →
       (0 <= n)%Z → items !! Z.to_nat n = Some x →
       resolve_path (JDict d) (k ++ lbracket :: i ++ [rbracket]) = x)
  ∧ (∀ items n,
       get_or_none d k = JList items → py_int i = Some n →
       (n < 0 ∨ Z.of_nat (length items) <= n)%Z →
       resolve_path (JDict d) (k ++ lbracket :: i ++ [rbracket]) = JNull)
  ∧ (py_int i = None →
     resolve_path (JDict d) (k ++ lbracket :: i ++ [rbracket]) = JNull)
  ∧ ((∀ items, get_or_none d k ≠ JList items) →
     resolve_path (JDict d) (k ++ lbracket :: i ++ [rbracket]) = JNull).
Proof.
  intros Hk Hi. pose proof Hk as (Hne & Hdot & Hbr).
  assert (Hpath : resolve_path (JDict d) (k ++ lbracket :: i ++ [rbracket])
                  = match resolve_part (JDict d) (k ++ lbracket :: i ++ [rbracket]) with
                    | Some current => current
                    | None => JNull
                    end).
  { unfold resolve_path. rewrite split_on_no_sep.
    - cbn [resolve_parts]. destruct k as [|c k]; [done|]. cbn [app].
      by destruct (resolve_part _ _).
    - rewrite has_char_app, Hdot. cbn [has_char existsb orb].
      fold (has_char dot (i ++ [rbracket])). rewrite has_char_app, Hi. done. }
  rewrite Hpath, resolve_part_index by done. split.
  - unfold resolve_path. rewrite split_on_no_sep by done. cbn [resolve_parts].
    destruct k as [|c k]; [done|]. unfold resolve_part.
    replace (has_char lbracket (c :: k)) with false. done.
  - split; [|split; [|split]].
    + intros items n x -> -> Hn Hx.
      apply lookup_lt_Some in Hx as Hlt.
      rewrite (proj2 (Z.ltb_ge _ _)) by done.
      rewrite (proj2 (Z.leb_gt _ _)) by lia. cbn [orb]. by rewrite Hx.
    + intros items n -> -> [Hn|Hn].
      * by rewrite (proj2 (Z.ltb_lt _ _)) by done.
      * rewrite (proj2 (Z.leb_le _ _)) by done. by rewrite orb_true_r.
    + intros ->. by destruct (get_or_none d k).
    + intros Hnl. destruct (get_or_none d k); try done. by destruct (Hnl items).
Qed.

(** ** Check boxes and fields of the template *)

(** X21. With [choices] a dict (or absent), [checkbox] never raises and
    returns one of the two configured symbols, for every value of the
    group. It returns the checked one exactly when: the group is a
    string and the option is that string; the group is a list and the
    option is [str] of one of its items; the group is a dict and the
    option is one of its keys; the group is a number or a boolean and
    the option is its [str]. A group that is missing or null ticks no
    option. With a [choices] that is present and not a dict the call
    raises. *)
Theorem checkbox_ticks data config choices group opt :
  get_or data (lit "choices") (JDict []) = JDict choices →
  (∃ b : bool,
     checkbox data config group opt
     = Some (if b then checked (checkbox_config config)
             else unchecked (checkbox_config config))
     ∧ (b = true ↔
        match get_or_none choices group with
        | JNull => False
        | JStr s => opt = s
        | JList items => ∃ item, item ∈ items ∧ str item = opt
        | JDict d => ∃ v, (opt, v) ∈ d
        | v => opt = str v
        end))
  ∧ (∀ data' v, dict_get data' (lit "choices") = Some v → (∀ d, v ≠ JDict d) →
       checkbox data' config group opt = None).
Proof.
  intros Hc. split.
  - unfold checkbox. rewrite Hc.
    exists (bool_decide (opt ∈ normalize_choice (get_or_none choices group))).
    split; [done|]. rewrite bool_decide_eq_true.
    destruct (get_or_none choices group) as [|b|z|bits|s|items|d];
      cbn [normalize_choice].
    + apply elem_of_nil.
    + apply list_elem_of_singleton.
    + apply list_elem_of_singleton.
    + apply list_elem_of_singleton.
    + apply list_elem_of_singleton.
    + rewrite list_elem_of_fmap. split.
      * intros (item & -> & Hin). eauto.
      * intros (item & Hin & <-). eauto.
    + rewrite list_elem_of_fmap. split.
      * intros ([k v] & -> & Hin). eauto.
      * intros (v & Hin). by exists (opt, v).
  - intros data' v Hv Hnd. unfold checkbox, get_or. rewrite Hv. cbn.
    destruct v; try done. by destruct (Hnd items).
Qed.


(** ** Content that a fill keeps *)

(** X23. For a value without a backslash that is not itself a run of
    underscores, a paragraph fill destroys no content: it returns
    [True], leaves the tables alone, and every paragraph still holds
    each piece of its text that was neither white space, underscores
    nor placeholder dashes. The value and the text of the paragraph are
    XML texts. *)
Theorem fill_paragraph_keeps_content doc p original v :
  plain v → xml_text v →
  paragraphs doc !! p = Some original → blank original = false →
  xml_text original →
  ∃ d, fill_paragraph doc p v = Ok (d, true)
    ∧ tables d = tables doc
    ∧ ∀ q old, paragraphs doc !! q = Some old →
        ∃ new, paragraphs d !! q = Some new ∧ preserved old new.
Proof. apply fill_paragraph_preserves. Qed.

(** X24. For a value without a backslash, a cell fill on a cell that
    exists destroys no content: it returns [True], leaves the
    paragraphs alone, and every position of every table still reads
    each piece of its text that was neither white space, underscores
    nor placeholder dashes; in particular the matched label stays,
    when the row has no cell to its right and when a merged cell makes
    the right neighbour the matched cell itself. The value and the
    texts of the row are XML texts, and positions that show one object
    read one text. *)
Theorem fill_table_cell_right_keeps_content doc m v ti r c row cell :
  literal v → xml_text v → coherent doc →
  table m = Some ti → cell_pos m = Some (r, c) →
  tables doc !! ti ≫= (λ tb, tb !! r) = Some row → row !! c = Some cell →
  Forall (λ x, xml_text (cell_text x)) row →
  ∃ d, fill_table_cell_right doc m v = Ok (d, true)
    ∧ paragraphs d = paragraphs doc
    ∧ ∀ ti' r' c' old, get_cell doc ti' r' c' = Some old →
        ∃ new, get_cell d ti' r' c' = Some new ∧ preserved old new.
Proof. apply fill_table_cell_right_preserves. Qed.

(** X25. [sim] is 0 when an input is the empty string, and when
    exactly one of the two inputs is empty after normalisation. *)
Theorem sim_zero_on_empty a b :
  (a = [] ∨ b = [] → (sim a b == 0)%Q)
  ∧ (norm a = [] → norm b ≠ [] → (sim a b == 0)%Q)
  ∧ (norm a ≠ [] → norm b = [] → (sim a b == 0)%Q).
Proof. apply sim_zero. Qed.

(** ** Labels up to normal form, and the default configuration *)

Lemma norm_norm s : case_mapping_laws → norm (norm s) = norm s.
Proof.
  intros (H1 & H2 & H3).
  assert (Hs : strip (norm s) = norm s).
  { unfold norm. apply collapse_ws_stripped, H3, strip_idem. }
  unfold norm at 1. rewrite Hs. unfold norm.
  by rewrite H2, H1, collapse_ws_idem.
Qed.

(** X26. Resolution looks at a label only through its normal form: two
    labels with the same normal form (the same up to case, to leading
    and trailing white space and to the length of the white space
    inside) resolve to the same match in every document, and a label
    that is already normalised resolves as the original does, although
    [sim] normalises it a second time. *)
Theorem find_best_anchor_normal_form doc a a' :
  case_mapping_laws → norm a = norm a' →
  find_best_anchor doc a = find_best_anchor doc a'
  ∧ find_best_anchor doc (norm a) = find_best_anchor doc a.
Proof.
  intros Hlaws Hn. unfold find_best_anchor. split.
  - by rewrite Hn.
  - by rewrite norm_norm.
Qed.

(** X27. [build_config] fails only on a [checkbox_symbols] entry that is
    not a dict. With the configuration it builds from data that has no
    [empty_placeholder] entry, [field] without a default is never
    [None] nor a blank string, for any data and path; and from data
    that has no [checkbox_symbols] entry, [checkbox] gives one of the
    two ballot boxes whenever [choices] is a dict or absent. *)
Theorem build_config_defaults data :
  (build_config data = None ↔
   ∃ v, dict_get data (lit "checkbox_symbols") = Some v ∧ ∀ d, v ≠ JDict d)
  ∧ ∀ config, build_config data = Some config →
      (dict_get data (lit "empty_placeholder") = None →
       ∀ d path,
         field d config path JNull ≠ JNull
         ∧ ∀ s, field d config path JNull = JStr s → blank s = false)
      ∧ (dict_get data (lit "checkbox_symbols") = None →
         ∀ choices group opt,
           get_or data (lit "choices") (JDict []) = JDict choices →
           checkbox data config group opt = Some (JStr CHECKED_DEFAULT)
           ∨ checkbox data config group opt = Some (JStr UNCHECKED_DEFAULT)).
Proof.
  unfold build_config, get_or. split.
  - destruct (dict_get data (lit "checkbox_symbols")) as [v|] eqn:Hv; cbn [default].
    + split.
      * intros H. exists v. split; [done|]. intros d ->. done.
      * intros (v' & [= <-] & Hnd). destruct v; try done. by destruct (Hnd items).
    + split; [done|]. by intros (v' & ? & _).
  - intros config Hcfg. split.
    + intros He. rewrite He in Hcfg. cbn [default] in Hcfg.
      destruct (default (JDict []) _); try done. injection Hcfg as <-.
      intros d path. unfold field. cbn [empty_placeholder].
      destruct (resolve_path d path) as [| | | |s| |]; cbn;
        try (split; [done|]; by intros s' [= <-]).
      destruct (blank s) eqn:Hb; (split; [done|]); by intros s' [= <-].
    + intros Hs choices group opt Hc. rewrite Hs in Hcfg. cbn [default dict_get] in Hcfg.
      injection Hcfg as <-. unfold checkbox, get_or. rewrite Hc.
      cbn [checkbox_config checked unchecked]. case_bool_decide; [by left|by right].
Qed.

(** ** The similarity of empty and of blank inputs *)

(** C9, as amended. [sim] lies between 0 and 1. It is 0 when an input is
    the empty string, and when exactly one of the inputs is empty after
    normalisation. For two inputs that are not empty and are both empty
    after normalisation (white space only), it is 1: the test for empty
    inputs looks at them as they are given. When the first input is
    already normalised, as in every call that [find_best_anchor] makes,
    [sim] is 0 whenever one of the inputs is empty after
    normalisation. *)
Theorem sim_range_and_zero a b :
  (0 <= sim a b <= 1)%Q
  ∧ (a = [] ∨ b = [] → (sim a b == 0)%Q)
  ∧ (norm a = [] → norm b ≠ [] → (sim a b == 0)%Q)
  ∧ (norm a ≠ [] → norm b = [] → (sim a b == 0)%Q)
  ∧ (a ≠ [] → b ≠ [] → norm a = [] → norm b = [] → (sim a b == 1)%Q)
  ∧ (case_mapping_laws →
     ∀ x, norm (norm x) = [] ∨ norm b = [] → (sim (norm x) b == 0)%Q).
Proof.
  destruct (sim_zero a b) as (H1 & H2 & H3).
  split; [apply sim_range|]. do 3 (split; [done|]). split.
  - intros Ha Hb Hna Hnb. unfold sim. destruct a, b; try done.
    by rewrite Hna, Hnb.
  - intros Hlaws x Hx. rewrite norm_norm in Hx by done.
    destruct (norm x) as [|c s] eqn:Hnx;
      [apply (proj1 (sim_zero [] b)); by left|].
    destruct Hx as [Hx|Hx]; [done|].
    apply (proj2 (proj2 (sim_zero (c :: s) b))); [|done].
    rewrite <- Hnx, norm_norm by done. by rewrite Hnx.
Qed.

End Engine.

(** * Examples

    With the ASCII case mapping, on ASCII texts. *)

Example replace_underscores_name :
  replace_underscores (lit "Full Name: _________") (lit "Ana Popescu")
  = Ok (lit "Full Name: Ana Popescu").
Proof. reflexivity. Qed.

Example replace_underscores_first_only :
  replace_underscores (lit "a __ b ____ c ___ d") (lit "X")
  = Ok (lit "a __ b X c ___ d").
Proof. reflexivity. Qed.

Example ratio_abcd : (ratio (lit "abcd") (lit "bcde") == 3 # 4)%Q.
Proof. reflexivity. Qed.

Example sim_case :
  (sim lower_ascii (lit "Full Name") (lit "  full   NAME ") == 1)%Q.
Proof. reflexivity. Qed.

Example cell_fallback_keeps_label :
  fill_table_cell_right (mkDocument [] [grid [[lit "Paid: 500"]]])
    (mkMatch KCell 1 None (Some 0) (Some (0, 0))) (lit "USD")
  = Ok (mkDocument [] [grid [[lit "Paid: 500 USD"]]], true).
Proof. reflexivity. Qed.

Example fill_full_name :
  fill lower_ascii (mkDocument [lit "Form"; lit "Full Name: _________"] [])
       [(lit "Full Name", lit "Ana Popescu")]
  = Ok (mkDocument [lit "Form"; lit "Full Name: Ana Popescu"] [], []).
Proof. vm_compute. reflexivity. Qed.

Example fill_date_of_birth :
  fill lower_ascii
       (mkDocument []
          [grid [[lit "Name"; lit "x"]; [lit "City"; lit "y"];
            [lit "Date of birth"; []]]])
       [(lit "date of birth", lit "1990-01-01");
        (lit "Nonexistent Field XYZ", lit "v")]
  = Ok (mkDocument []
          [grid [[lit "Name"; lit "x"]; [lit "City"; lit "y"];
            [lit "Date of birth"; lit "1990-01-01"]]],
        [lit "Nonexistent Field XYZ"]).
Proof. vm_compute. reflexivity. Qed.

(** The paragraph after the matched one is never written: where the
    label is followed by an empty paragraph, or by a line of
    underscores, the value is appended to the label. *)
Example fill_paragraph_appends_before_blank :
  fill_paragraph (mkDocument [lit "Name"; []] []) 0 (lit "Ana")
  = Ok (mkDocument [lit "Name Ana"; []] [], true).
Proof. reflexivity. Qed.

Example fill_paragraph_appends_before_underscores :
  fill_paragraph (mkDocument [lit "Signature"; lit "__________"] []) 0 (lit "Ana")
  = Ok (mkDocument [lit "Signature Ana"; lit "__________"] [], true).
Proof. reflexivity. Qed.

(** A value with a control character cannot be stored, and a carriage
    return reads back as a line feed. *)
Example fill_paragraph_control_character :
  fill_paragraph (mkDocument [lit "Name: ___"] []) 0 [97; 1; 98]%N
  = Raise ValueError.
Proof. reflexivity. Qed.

Example fill_paragraph_carriage_return :
  fill_paragraph (mkDocument [lit "Name: ___"] []) 0 [97; 13; 98]%N
  = Ok (mkDocument [lit "Name: " ++ [97; 10; 98]%N] [], true).
Proof. reflexivity. Qed.

(** A merged cell stands at two positions of its row: the value goes to
    the right neighbour of the matched position, which is the matched
    cell itself, and both positions read the new text. *)
Example fill_merged_cell :
  fill_table_cell_right
    (mkDocument []
       [[[mkCell (0, 0) (lit "Date:"); mkCell (0, 0) (lit "Date:");
          mkCell (0, 2) (lit "Notes")]]])
    (mkMatch KCell 1 None (Some 0) (Some (0, 0))) (lit "1990")
  = Ok (mkDocument []
          [[[mkCell (0, 0) (lit "Date: 1990"); mkCell (0, 0) (lit "Date: 1990");
             mkCell (0, 2) (lit "Notes")]]], true).
Proof. reflexivity. Qed.

(** ** The ASCII case mapping *)

Lemma lower_ascii_isspace c :
  isspace (if ((65 <=? c) && (c <=? 90))%N then (c + 32)%N else c) = isspace c.
Proof.
  destruct (N.leb_spec 65 c) as [H1|H1]; cbn [andb]; [|done].
  destruct (N.leb_spec c 90) as [H2|H2]; [|done].
  unfold isspace.
  repeat match goal with
         | |- context [(?a <=? ?b)%N] => destruct (N.leb_spec a b); try lia
         | |- context [(?a =? ?b)%N] => destruct (N.eqb_spec a b); try lia
         end; reflexivity.
Qed.

Lemma lower_ascii_lstrip s : lstrip (lower_ascii s) = lower_ascii (lstrip s).
Proof.
  induction s as [|c s IH]; [done|]. cbn [lower_ascii map lstrip].
  rewrite lower_ascii_isspace. by destruct (isspace c).
Qed.

Lemma lower_ascii_rstrip s : rstrip (lower_ascii s) = lower_ascii (rstrip s).
Proof.
  induction s as [|c s IH]; [done|]. cbn [lower_ascii map rstrip].
  fold (lower_ascii s). rewrite IH.
  destruct (rstrip s) as [|c' r]; cbn [lower_ascii map]; [|done].
  rewrite lower_ascii_isspace. by destruct (isspace c).
Qed.

Lemma lower_ascii_collapse s :
  lower_ascii (collapse_ws s) = collapse_ws (lower_ascii s).
Proof.
  induction s as [|c s IH]; [done|]. cbn [lower_ascii map collapse_ws].
  rewrite lower_ascii_isspace. destruct (isspace c) eqn:Hc.
  - destruct s as [|c' s']; [done|]. cbn [map].
    rewrite lower_ascii_isspace. destruct (isspace c'); [exact IH|].
    cbn [lower_ascii map]. f_equal. exact IH.
  - cbn [lower_ascii map]. f_equal. exact IH.
Qed.

Lemma lower_ascii_laws : case_mapping_laws lower_ascii.
Proof.
  split; [|split].
  - intros s. unfold lower_ascii. rewrite map_map. apply map_ext. intros c.
    destruct (N.leb_spec 65 c) as [H1|H1]; cbn [andb].
    + destruct (N.leb_spec c 90) as [H2|H2].
      * destruct (N.leb_spec 65 (c + 32)); cbn [andb]; [|done].
        destruct (N.leb_spec (c + 32) 90); [lia|done].
      * by rewrite (proj2 (N.leb_le _ _)), (proj2 (N.leb_gt _ _)) by lia.
    + by rewrite (proj2 (N.leb_gt 65 c)) by lia.
  - apply lower_ascii_collapse.
  - intros s Hs. unfold strip. rewrite lower_ascii_lstrip, lower_ascii_rstrip.
    fold (strip s). by rewrite Hs.
Qed.

(** ** Witnesses *)

Lemma fill_paragraph_blank_returns_false_witness :
  fill_paragraph (mkDocument [lit "Name"; lit "  "] []) 1 (lit "Ana")
  = Ok (mkDocument [lit "Name"; lit "  "] [], false).
Proof.
  apply (proj1 (fill_paragraph_blank_returns_false
                  (mkDocument [lit "Name"; lit "  "] []) 1 (lit "  ") (lit "Ana")
                  eq_refl)).
  reflexivity.
Defined.

Lemma fill_unresolved_anchor_witness :
  fill_fields lower_ascii (mkDocument [lit "Full Name: ____"; lit "Notes"] []) []
    ([(lit "Full Name", lit "Ana")]
     ++ (lit "Nonexistent Field XYZ", lit "v") :: [(lit "notes", lit "ok")])
  = fill_fields lower_ascii (mkDocument [lit "Full Name: Ana"; lit "Notes"] [])
      ([] ++ [lit "Nonexistent Field XYZ"]) [(lit "notes", lit "ok")].
Proof.
  apply (fill_unresolved_anchor lower_ascii
           (mkDocument [lit "Full Name: ____"; lit "Notes"] []) []
           [(lit "Full Name", lit "Ana")] (lit "Nonexistent Field XYZ") (lit "v")
           [(lit "notes", lit "ok")]
           (mkDocument [lit "Full Name: Ana"; lit "Notes"] []) []).
  - discriminate.
  - vm_compute. reflexivity.
  - vm_compute. reflexivity.
Defined.


Lemma substring_boost_selects_witness :
  (boost <= region_score lower_ascii (norm lower_ascii (lit "Full Name"))
              (lit "Please print your full name here"))%Q.
Proof.
  apply (substring_boost_selects lower_ascii
           (mkDocument [lit "Full Names"; lit "Please print your full name here"] [])
           (lit "Full Name") 1 (RParagraph 1) (lit "Please print your full name here")).
  - reflexivity.
  - discriminate.
  - vm_compute. reflexivity.
Defined.


Lemma sim_range_and_zero_witness :
  (sim lower_ascii (lit "  ") (lit "Name") == 0)%Q.
Proof.
  apply (proj1 (proj2 (proj2 (sim_range_and_zero lower_ascii (lit "  ") (lit "Name"))))).
  - reflexivity.
  - discriminate.
Defined.

(** ** Witnesses of the further properties *)

Lemma fill_paragraph_frame_witness :
  doc_shape (mkDocument [lit "Name: Ana"; lit "Notes"] [])
  = doc_shape (mkDocument [lit "Name: ___"; lit "Notes"] [])
  ∧ tables (mkDocument [lit "Name: Ana"; lit "Notes"] [])
    = tables (mkDocument [lit "Name: ___"; lit "Notes"] [])
  ∧ (true = false →
     mkDocument [lit "Name: Ana"; lit "Notes"] []
     = mkDocument [lit "Name: ___"; lit "Notes"] [])
  ∧ ∀ i, i ≠ 0 →
      paragraphs (mkDocument [lit "Name: Ana"; lit "Notes"] []) !! i
      = paragraphs (mkDocument [lit "Name: ___"; lit "Notes"] []) !! i.
Proof.
  apply (fill_paragraph_frame (mkDocument [lit "Name: ___"; lit "Notes"] []) 0
           (lit "Ana")).
  reflexivity.
Defined.

Lemma fill_table_cell_right_frame_any_witness :
  true = true
  ∧ doc_shape (mkDocument []
                 [[[mkCell (0, 0) (lit "Date: 1990"); mkCell (0, 0) (lit "Date: 1990");
                    mkCell (0, 2) (lit "Notes")]]])
    = doc_shape (mkDocument []
                   [[[mkCell (0, 0) (lit "Date:"); mkCell (0, 0) (lit "Date:");
                      mkCell (0, 2) (lit "Notes")]]])
  ∧ paragraphs (mkDocument []
                  [[[mkCell (0, 0) (lit "Date: 1990"); mkCell (0, 0) (lit "Date: 1990");
                     mkCell (0, 2) (lit "Notes")]]])
    = paragraphs (mkDocument []
                    [[[mkCell (0, 0) (lit "Date:"); mkCell (0, 0) (lit "Date:");
                       mkCell (0, 2) (lit "Notes")]]])
  ∧ ∃ ti r c c' x w,
      table (mkMatch KCell 1 None (Some 0) (Some (0, 0))) = Some ti
      ∧ cell_pos (mkMatch KCell 1 None (Some 0) (Some (0, 0))) = Some (r, c)
      ∧ (c' = c + 1
         ∨ c' = c
           ∧ cell_at (mkDocument []
                        [[[mkCell (0, 0) (lit "Date:"); mkCell (0, 0) (lit "Date:");
                           mkCell (0, 2) (lit "Notes")]]]) ti r (c + 1) = None)
      ∧ cell_at (mkDocument []
                   [[[mkCell (0, 0) (lit "Date:"); mkCell (0, 0) (lit "Date:");
                      mkCell (0, 2) (lit "Notes")]]]) ti r c' = Some x
      ∧ ∀ ti' r' c'' y,
          cell_at (mkDocument []
                     [[[mkCell (0, 0) (lit "Date:"); mkCell (0, 0) (lit "Date:");
                        mkCell (0, 2) (lit "Notes")]]]) ti' r' c'' = Some y →
          cell_at (mkDocument []
                     [[[mkCell (0, 0) (lit "Date: 1990");
                        mkCell (0, 0) (lit "Date: 1990");
                        mkCell (0, 2) (lit "Notes")]]]) ti' r' c''
          = Some (if bool_decide (ti' = ti ∧ cell_id y = cell_id x)
                  then mkCell (cell_id y) w else y).
Proof.
  apply (fill_table_cell_right_frame_any
           (mkDocument []
              [[[mkCell (0, 0) (lit "Date:"); mkCell (0, 0) (lit "Date:");
                 mkCell (0, 2) (lit "Notes")]]])
           (mkMatch KCell 1 None (Some 0) (Some (0, 0))) (lit "1990")).
  reflexivity.
Defined.

Lemma find_best_anchor_valid_witness :
  (min_score <= score (mkMatch KParagraph (8 # 8) (Some 0%nat) None None) <= 1)%Q.
Proof.
  apply (proj1 (find_best_anchor_valid lower_ascii
                  (mkDocument [lit "Name"; lit "name"] [grid [[lit "NAME"]]])
                  (lit "name")
                  (mkMatch KParagraph (8 # 8) (Some 0%nat) None None)
                  ltac:(vm_compute; reflexivity))).
Defined.

Lemma fill_raises_template_or_value_witness :
  fill_fields lower_ascii (mkDocument [lit "Home folder: ______"] []) []
    [(lit "Home folder", lit "C:\apps")]
  = Raise ValueError
  ∧ ((ValueError = TemplateError
      ∧ Exists (λ f : text * text, ¬ literal f.2)
          [(lit "Home folder", lit "C:\apps")])
     ∨ ValueError = ValueError).
Proof.
  assert (H : fill_fields lower_ascii (mkDocument [lit "Home folder: ______"] []) []
                [(lit "Home folder", lit "C:\apps")]
              = Raise ValueError) by (vm_compute; reflexivity).
  split; [exact H|].
  exact (fill_raises_template_or_value lower_ascii _ _ _ _ H).
Defined.

Lemma fill_literal_values_returns_witness :
  ∃ d nf',
    fill_fields lower_ascii (mkDocument [lit "Full Name: ____"] []) []
      [(lit "Full Name", lit "Ana")]
    = Ok (d, nf')
    ∧ xml_document d.
Proof.
  apply (fill_literal_values_returns lower_ascii).
  - repeat constructor; discriminate.
  - by repeat constructor.
Defined.

Lemma fill_keeps_shape_witness :
  doc_shape (mkDocument [lit "Form"; lit "Full Name: Ana Popescu"] [])
  = doc_shape (mkDocument [lit "Form"; lit "Full Name: _________"] []).
Proof.
  apply (fill_keeps_shape lower_ascii [(lit "Full Name", lit "Ana Popescu")]
           (mkDocument [lit "Form"; lit "Full Name: _________"] []) []
           (mkDocument [lit "Form"; lit "Full Name: Ana Popescu"] []) []).
  vm_compute. reflexivity.
Defined.

Lemma fill_reports_input_labels_witness :
  ∃ l, [lit "Nonexistent Field XYZ"] = [] ++ l
       ∧ l `sublist_of`
           filter (λ a, nonempty a = true)
             (map fst [(lit "Full Name", lit "Ana");
                       (lit "Nonexistent Field XYZ", lit "v")]).
Proof.
  apply (fill_reports_input_labels lower_ascii
           [(lit "Full Name", lit "Ana"); (lit "Nonexistent Field XYZ", lit "v")]
           (mkDocument [lit "Full Name: ____"] []) []
           (mkDocument [lit "Full Name: Ana"] []) [lit "Nonexistent Field XYZ"]).
  vm_compute. reflexivity.
Defined.

Lemma fill_blank_document_witness :
  fill_fields lower_ascii (mkDocument [lit "  "] [grid [[[]; lit " "]]]) []
    [(lit "Name", lit "Ana"); ([], lit "x"); (lit "City", lit "Cluj")]
  = Ok (mkDocument [lit "  "] [grid [[[]; lit " "]]],
        [] ++ filter (λ a, nonempty a = true)
                (map fst [(lit "Name", lit "Ana"); ([], lit "x");
                          (lit "City", lit "Cluj")])).
Proof.
  apply (fill_blank_document lower_ascii).
  intros [p|ti r c] t.
  - destruct p as [|p]; cbn; [by intros [= <-]|by destruct p].
  - destruct ti as [|ti]; [|by destruct ti].
    destruct r as [|r]; [|by destruct r].
    destruct c as [|[|c]]; cbn; [by intros [= <-]|by intros [= <-]|by destruct c].
Defined.

Lemma replace_underscores_literal_value_witness :
  replace_underscores (lit "Name: ___ x") (lit "Ana")
  = Ok (lit "Name: " ++ or_dash (lit "Ana") ++ lit " x").
Proof.
  apply (proj1 (replace_underscores_literal_value (lit "Name: ___ x") (lit "Ana"))
           (lit "Name: ") (lit "___") (lit " x")).
  - repeat constructor; discriminate.
  - split; [reflexivity|]. split; [cbn; lia|]. split; [by repeat constructor|].
    split; [reflexivity|].
    intros k Hk. do 6 (destruct k as [|k]; [vm_compute; lia|]). vm_compute in Hk. lia.
Defined.

Lemma fill_paragraph_first_strategy_witness :
  applies next_strategy (mkDocument [lit "Name"; []] []) 0 (lit "Name") (lit "Ana")
  = false
  ∧ ∃ t, first_applicable paragraph_chain
           (mkDocument [lit "Name"; []] []) 0 (lit "Name") (lit "Ana")
         = Some (0, t)
         ∧ fill_paragraph (mkDocument [lit "Name"; []] []) 0 (lit "Ana")
           = Ok (set_paragraph (mkDocument [lit "Name"; []] []) 0 (written t), true).
Proof.
  apply fill_paragraph_first_strategy.
  - split; [repeat constructor; discriminate|].
    intros [_ H]. by apply Forall_cons_1 in H as [? _].
  - by repeat constructor.
  - reflexivity.
  - reflexivity.
  - by repeat constructor.
Defined.

Lemma norm_idempotent_witness :
  norm lower_ascii (norm lower_ascii (lit "  Full   NAME "))
  = norm lower_ascii (lit "  Full   NAME ").
Proof.
  apply (proj1 (norm_idempotent lower_ascii (lit "  Full   NAME ") lower_ascii_laws)).
Defined.

Lemma load_fields_stripped_witness :
  Forall (λ f : text * text, strip f.1 = f.1 ∧ strip f.2 = f.2)
    [(lit "Name", lit "Ana"); (lit "Minor", lit "False"); (lit "Age", lit "42")].
Proof.
  apply (load_fields_stripped py_str_basic
           (JDict [(lit " Name ", JStr (lit " Ana ")); (lit "Minor", JBool false);
                   (lit "Age", JInt 42)])).
  reflexivity.
Defined.

Lemma load_fields_fields_list_witness :
  ∃ fields,
    load_fields py_str_basic
      (JDict [(lit "title", JStr (lit "Form"));
              (lit "fields",
               JList [JDict [(lit "anchor", JStr (lit "Name"));
                             (lit "value", JStr (lit "Ana"))];
                      JNull])])
    = Loaded fields
    ∧ Forall (λ f : text * text, f.1 ≠ []) fields
    ∧ length fields ≤ length [JDict [(lit "anchor", JStr (lit "Name"));
                                     (lit "value", JStr (lit "Ana"))];
                              JNull]
    ∧ ∀ d', dict_get d' (lit "fields")
            = Some (JList [JDict [(lit "anchor", JStr (lit "Name"));
                                  (lit "value", JStr (lit "Ana"))];
                           JNull]) →
        load_fields py_str_basic (JDict d') = Loaded fields.
Proof.
  apply (load_fields_fields_list py_str_basic
           [(lit "title", JStr (lit "Form"));
            (lit "fields",
             JList [JDict [(lit "anchor", JStr (lit "Name"));
                           (lit "value", JStr (lit "Ana"))];
                    JNull])]
           [JDict [(lit "anchor", JStr (lit "Name"));
                   (lit "value", JStr (lit "Ana"))];
            JNull]).
  reflexivity.
Defined.

Lemma resolve_path_scalar_witness :
  resolve_path py_int_ascii (JStr (lit "x")) (lit "a.b") = JNull.
Proof.
  apply (resolve_path_scalar py_int_ascii (JStr (lit "x")) (lit "a.b") 97%N).
  - exact I.
  - by left.
  - discriminate.
Defined.

Lemma resolve_path_key_index_witness :
  resolve_path py_int_ascii
    (JDict [(lit "items", JList [JStr (lit "a"); JStr (lit "b")])])
    (lit "items" ++ lbracket :: lit "1" ++ [rbracket])
  = JStr (lit "b").
Proof.
  apply (proj1 (proj2 (resolve_path_key_index py_int_ascii
                         [(lit "items", JList [JStr (lit "a"); JStr (lit "b")])]
                         (lit "items") (lit "1")
                         ltac:(split; [discriminate|split; reflexivity])
                         eq_refl))
           [JStr (lit "a"); JStr (lit "b")] 1%Z).
  - reflexivity.
  - reflexivity.
  - lia.
  - reflexivity.
Defined.

Lemma checkbox_ticks_witness :
  ∃ b : bool,
    checkbox py_str_basic
      [(lit "choices", JDict [(lit "basis", JStr (lit "charter"))])]
      (mkFillConfig (JStr em_dash)
         (mkCheckboxConfig (JStr CHECKED_DEFAULT) (JStr UNCHECKED_DEFAULT)))
      (lit "basis") (lit "charter")
    = Some (if b
            then checked (checkbox_config
                   (mkFillConfig (JStr em_dash)
                      (mkCheckboxConfig (JStr CHECKED_DEFAULT)
                         (JStr UNCHECKED_DEFAULT))))
            else unchecked (checkbox_config
                   (mkFillConfig (JStr em_dash)
                      (mkCheckboxConfig (JStr CHECKED_DEFAULT)
                         (JStr UNCHECKED_DEFAULT)))))
    ∧ (b = true ↔
       match get_or_none [(lit "basis", JStr (lit "charter"))] (lit "basis") with
       | JNull => False
       | JStr s => lit "charter" = s
       | JList items => ∃ item, item ∈ items ∧ str py_str_basic item = lit "charter"
       | JDict d => ∃ v, (lit "charter", v) ∈ d
       | v => lit "charter" = str py_str_basic v
       end).
Proof.
  apply (proj1 (checkbox_ticks py_str_basic
                  [(lit "choices", JDict [(lit "basis", JStr (lit "charter"))])]
                  (mkFillConfig (JStr em_dash)
                     (mkCheckboxConfig (JStr CHECKED_DEFAULT)
                        (JStr UNCHECKED_DEFAULT)))
                  [(lit "basis", JStr (lit "charter"))]
                  (lit "basis") (lit "charter") eq_refl)).
Defined.


Lemma fill_paragraph_keeps_content_witness :
  ∃ d, fill_paragraph (mkDocument [lit "Name: ___ important"] []) 0 (lit "Ana")
       = Ok (d, true)
    ∧ tables d = tables (mkDocument [lit "Name: ___ important"] [])
    ∧ ∀ q old,
        paragraphs (mkDocument [lit "Name: ___ important"] []) !! q = Some old →
        ∃ new, paragraphs d !! q = Some new ∧ preserved old new.
Proof.
  apply (fill_paragraph_keeps_content _ 0 (lit "Name: ___ important")).
  - split; [repeat constructor; discriminate|].
    intros [_ H]. by apply Forall_cons_1 in H as [? _].
  - by repeat constructor.
  - reflexivity.
  - reflexivity.
  - by repeat constructor.
Defined.

Lemma fill_table_cell_right_keeps_content_witness :
  ∃ d, fill_table_cell_right (mkDocument [] [grid [[lit "Paid: 500"]]])
         (mkMatch KCell 1 None (Some 0) (Some (0, 0))) (lit "USD")
       = Ok (d, true)
    ∧ paragraphs d = paragraphs (mkDocument [] [grid [[lit "Paid: 500"]]])
    ∧ ∀ ti' r' c' old,
        get_cell (mkDocument [] [grid [[lit "Paid: 500"]]]) ti' r' c' = Some old →
        ∃ new, get_cell d ti' r' c' = Some new ∧ preserved old new.
Proof.
  apply (fill_table_cell_right_keeps_content _ _ _ 0 0 0
           [mkCell (0, 0) (lit "Paid: 500")] (mkCell (0, 0) (lit "Paid: 500"))).
  - repeat constructor; discriminate.
  - by repeat constructor.
  - intros tb row row' x y Htb Hrow Hrow' Hx Hy _.
    apply list_elem_of_singleton in Htb as ->.
    apply list_elem_of_singleton in Hrow as ->.
    apply list_elem_of_singleton in Hrow' as ->.
    apply list_elem_of_singleton in Hx as ->.
    by apply list_elem_of_singleton in Hy as ->.
  - reflexivity.
  - reflexivity.
  - reflexivity.
  - reflexivity.
  - by repeat constructor.
Defined.

Lemma sim_zero_on_empty_witness :
  (sim lower_ascii (lit "  ") (lit "Name") == 0)%Q.
Proof.
  apply (proj1 (proj2 (sim_zero_on_empty lower_ascii (lit "  ") (lit "Name")))).
  - reflexivity.
  - discriminate.
Defined.

Lemma find_best_anchor_normal_form_witness :
  find_best_anchor lower_ascii (mkDocument [lit "Full name: ___"] [])
    (lit " Full   NAME ")
  = find_best_anchor lower_ascii (mkDocument [lit "Full name: ___"] [])
      (lit "full name").
Proof.
  apply (proj1 (find_best_anchor_normal_form lower_ascii
                  (mkDocument [lit "Full name: ___"] [])
                  (lit " Full   NAME ") (lit "full name")
                  lower_ascii_laws eq_refl)).
Defined.

Lemma build_config_defaults_witness :
  checkbox py_str_basic
    [(lit "choices", JDict [(lit "basis", JStr (lit "charter"))])]
    (mkFillConfig (JStr em_dash)
       (mkCheckboxConfig (JStr CHECKED_DEFAULT) (JStr UNCHECKED_DEFAULT)))
    (lit "basis") (lit "order")
  = Some (JStr CHECKED_DEFAULT)
  ∨ checkbox py_str_basic
      [(lit "choices", JDict [(lit "basis", JStr (lit "charter"))])]
      (mkFillConfig (JStr em_dash)
         (mkCheckboxConfig (JStr CHECKED_DEFAULT) (JStr UNCHECKED_DEFAULT)))
      (lit "basis") (lit "order")
    = Some (JStr UNCHECKED_DEFAULT).
Proof.
  apply (proj2 (proj2 (build_config_defaults py_str_basic py_int_ascii
                         [(lit "choices", JDict [(lit "basis", JStr (lit "charter"))])])
                  (mkFillConfig (JStr em_dash)
                     (mkCheckboxConfig (JStr CHECKED_DEFAULT) (JStr UNCHECKED_DEFAULT)))
                  eq_refl)
           eq_refl [(lit "basis", JStr (lit "charter"))]).
  reflexivity.
Defined.

(** ** Values with a backslash, and other inputs the fills mishandle *)

(** C8. [replace_underscores] does not always put the value in place of
    the first run: the value is parsed as a replacement template, so
    ["C:\temp"] is written with a tab for its [\t], and a value such as
    ["C:\Users\ana"] makes the call raise. *)
Theorem replace_underscores_backslash_value :
  replace_underscores (lit "Path: ___") (lit "C:\temp")
    = Ok (lit "Path: C:" ++ [9%N] ++ lit "emp")
  ∧ replace_underscores (lit "Path: ___") (lit "C:\temp")
    ≠ Ok (lit "Path: " ++ lit "C:\temp")
  ∧ replace_underscores (lit "Path: ___") (lit "C:\Users\ana")
    = Raise TemplateError.
Proof. split; [reflexivity|split; [discriminate|reflexivity]]. Qed.

(** C3. On the paragraph of the specification's example the underscore
    fill fires and gives ["Full Name: Ana Popescu"]; but on a paragraph
    with a run of underscores and the value ["C:\Users\ana"] no strategy
    fires and the call does not return: it raises from the underscore
    fill. *)
Theorem fill_paragraph_backslash_value :
  fill_paragraph (mkDocument [lit "Full Name: _________"] []) 0 (lit "Ana Popescu")
    = Ok (mkDocument [lit "Full Name: Ana Popescu"] [], true)
  ∧ fill_paragraph (mkDocument [lit "Home folder: ______"] []) 0 (lit "C:\Users\ana")
    = Raise TemplateError.
Proof. split; reflexivity. Qed.

(** C4. With an empty right neighbour the value goes into it and the
    call returns [True]; but when the right neighbour holds a run of
    underscores and the value is ["C:\Users\ana"], the call raises
    instead of returning [True]. *)
Theorem fill_table_cell_right_backslash_value :
  fill_table_cell_right
      (mkDocument [] [grid [[lit "a"; lit "b"]; [lit "c"; lit "d"];
                       [lit "Date of birth"; []]]])
      (mkMatch KCell 1 None (Some 0) (Some (2, 0))) (lit "1990-01-01")
    = Ok (mkDocument [] [grid [[lit "a"; lit "b"]; [lit "c"; lit "d"];
                          [lit "Date of birth"; lit "1990-01-01"]]], true)
  ∧ fill_table_cell_right
      (mkDocument [] [grid [[lit "Home folder"; lit "______"]]])
      (mkMatch KCell 1 None (Some 0) (Some (0, 0))) (lit "C:\Users\ana")
    = Raise TemplateError.
Proof. split; reflexivity. Qed.

(** C5. The colon rewrite can drop content: when the value is itself
    the first run of underscores, the underscore fill changes nothing,
    the colon pattern is tried, and the text after the colon is
    replaced, with the words that stood after the run. *)
Theorem colon_fill_drops_content :
  fill_paragraph (mkDocument [lit "Name: ___ important"] []) 0 (lit "___")
    = Ok (mkDocument [lit "Name: ___"] [], true)
  ∧ meaningful (lit "important")
  ∧ occurs (lit "important") (lit "Name: ___ important")
  ∧ ¬ occurs (lit "important") (lit "Name: ___").
Proof.
  split; [reflexivity|]. split.
  { split; [discriminate|]. repeat constructor. }
  split.
  { by exists (lit "Name: ___ "), []. }
  intros H. by apply contains_spec in H.
Qed.

(** C9, as stated, fails: [sim] is 1, not 0, on two strings of white
    space. Both are empty after normalisation, but the test for empty
    inputs looks at them before. *)
Theorem sim_blank_inputs :
  norm lower_ascii (lit " ") = []
  ∧ (sim lower_ascii (lit " ") (lit " ") == 1)%Q
  ∧ ¬ (sim lower_ascii (lit " ") (lit " ") == 0)%Q.
Proof. split; [reflexivity|split; [reflexivity|discriminate]]. Qed.
